(** * The items store of [src/vue-store-sample.ts] (useItemsStore)

    A shallow embedding of the Pinia store: the reactive array
    [modifiedItems], the index cell [selectedItemIndex], the mutating
    methods and the computed views that derive topics and progress. *)

From Stdlib Require Import ZArith.
From Stdlib Require Import Floats.SpecFloat.
From stdpp Require Import gmap strings list pretty.

Local Open Scope Z_scope.

(** ** JavaScript values used by the store *)

(** A JS [number] is an IEEE-754 binary64 value. *)
Definition number : Type := spec_float.

Definition prec : Z := 53.
Definition emax : Z := 1024.

(** The number denoted by an integer literal or by an exact counter. *)
Definition of_Z (z : Z) : number := binary_normalize prec emax z 0 false.

Definition num_div (x y : number) : number := SFdiv prec emax x y.
Definition num_mul (x y : number) : number := SFmul prec emax x y.

(** [x === y] on numbers. *)
Definition strict_eq (x y : number) : bool := SFeqb x y.

(** The errors the store can raise. *)
Inductive JsError : Type :=
| TypeError.

(** [arr[idx]] where [idx] is a [number | null]: [None] stands for
    [undefined], which is what JS yields for [null], for a negative
    index and for an index past the end. *)
Definition array_get {A : Type} (arr : list A) (idx : option Z) : option A :=
  match idx with
  | Some i => if decide (0 ≤ i) then arr !! Z.to_nat i else None
  | None => None
  end.

(** [arr.findIndex(p)]: the index of the first element satisfying [p],
    [-1] when there is none. *)
Fixpoint findIndex_from {A : Type} (p : A → bool) (k : Z) (arr : list A) : Z :=
  match arr with
  | [] => -1
  | x :: rest => if p x then k else findIndex_from p (k + 1) rest
  end.

Definition findIndex {A : Type} (p : A → bool) (arr : list A) : Z :=
  findIndex_from p 0 arr.

(** [arr.find(p)]. *)
Fixpoint find_first {A : Type} (p : A → bool) (arr : list A) : option A :=
  match arr with
  | [] => None
  | x :: rest => if p x then Some x else find_first p rest
  end.

(** [arr.reduce(f, init)]. *)
Definition reduce {A B : Type} (f : B → A → B) (init : B) (arr : list A) : B :=
  foldl f init arr.

(** [arr.every(p)]. *)
Definition every {A : Type} (p : A → bool) (arr : list A) : bool :=
  forallb p arr.

(** A JS [Set] of strings keeps its members in insertion order; adding a
    member that is already there changes nothing. *)
Abbreviation JsSet := (list string).

Definition JsSet_add (s : JsSet) (x : string) : JsSet :=
  if decide (x ∈ s) then s else s ++ [x].

(** [new Set(iterable)] adds the elements one after the other. *)
Definition JsSet_new (l : list string) : JsSet := foldl JsSet_add [] l.

(** [[...set]] lists the members in insertion order. *)
Definition spread (s : JsSet) : list string := s.

(** ** Data model *)

(** Modelled from the spec: the declaration of [IItem] in [@/types] is not
    part of the sources; the spec gives a raw item an integer [itemId], a
    [topicKey], a [topicTitle] and further display fields. *)
Record IItem : Type := mkIItem {
  itemId : Z;
  topicKey : string;
  topicTitle : string;
  display : list (string * string)
}.

(** [IItemModified]: what [setCopyOfItems] builds, the raw fields spread
    into the object followed by [score], [comment] and [fulfilled]. *)
Record IItemModified : Type := mkItem {
  item : IItem;
  score : option number;
  comment : option string;
  fulfilled : bool
}.

(** One entry of [totalProgress]. *)
Record IProgress : Type := mkProgress {
  progressTopicKey : string;
  progressTopicTitle : option string;
  widthPercentage : option number;
  progressPercent : number
}.

(** ** The store

    Arrays live in a heap and are handled through their address, so that
    two holders of the same array see each other's writes. An item object
    is reached only through the array that holds it, hence a slot of an
    array stands for the object stored there. *)
Record Store : Type := mkStore {
  heap : gmap nat (list IItemModified);
  modifiedItems : nat;
  selectedItemIndex : option Z;
  summaryInits : list nat
}.

(** The state of a freshly created store: [ref([])] and [ref(null)]. *)
Definition initialStore : Store :=
  {| heap := {[ 0%nat := [] ]};
     modifiedItems := 0%nat;
     selectedItemIndex := None;
     summaryInits := [] |}.

(** The contents of the registry: the array [modifiedItems.value]. *)
Definition items (s : Store) : list IItemModified :=
  default [] (heap s !! modifiedItems s).

(** ** Store actions: state passing with exceptions *)

Inductive outcome (A : Type) : Type :=
| Normal (a : A)
| Thrown (e : JsError).
Arguments Normal {A} a.
Arguments Thrown {A} e.

Definition Action (A : Type) : Type := Store → Store * outcome A.

Definition act_ret {A : Type} (a : A) : Action A := λ s, (s, Normal a).

Definition act_bind {A B : Type} (m : Action A) (k : A → Action B) : Action B :=
  λ s, match m s with
       | (s', Normal a) => k a s'
       | (s', Thrown e) => (s', Thrown e)
       end.

Definition throw {A : Type} (e : JsError) : Action A := λ s, (s, Thrown e).

Module ActionNotations.
Notation "'let*' x ':=' m 'in' k" := (act_bind m (λ x, k))
  (at level 10, x name, m at level 100, k at level 200).
Notation "m '>>' k" := (act_bind m (λ _, k))
  (at level 100, k at level 200, right associativity).
End ActionNotations.
Import ActionNotations.

(** The final state and the outcome of running an action. *)
Definition exec {A : Type} (m : Action A) (s : Store) : Store := fst (m s).
Definition result {A : Type} (m : Action A) (s : Store) : outcome A := snd (m s).

(** *** Primitive accesses *)

(** Evaluating an array literal or [Array.prototype.map] creates a new array. *)
Definition new_array (arr : list IItemModified) : Action nat :=
  λ s, let a := fresh (dom (heap s)) in
       ({| heap := <[a := arr]> (heap s);
           modifiedItems := modifiedItems s;
           selectedItemIndex := selectedItemIndex s;
           summaryInits := summaryInits s |}, Normal a).

Definition read_modifiedItems : Action nat :=
  λ s, (s, Normal (modifiedItems s)).

Definition write_modifiedItems (a : nat) : Action unit :=
  λ s, ({| heap := heap s;
           modifiedItems := a;
           selectedItemIndex := selectedItemIndex s;
           summaryInits := summaryInits s |}, Normal tt).

Definition read_selectedItemIndex : Action (option Z) :=
  λ s, (s, Normal (selectedItemIndex s)).

Definition write_selectedItemIndex (i : option Z) : Action unit :=
  λ s, ({| heap := heap s;
           modifiedItems := modifiedItems s;
           selectedItemIndex := i;
           summaryInits := summaryInits s |}, Normal tt).

Definition read_array (a : nat) : Action (list IItemModified) :=
  λ s, (s, Normal (default [] (heap s !! a))).

(** [a[idx]]: the slot holding the object, or [None] for [undefined]. *)
Definition element (a : nat) (idx : option Z) : Action (option (nat * nat)) :=
  let* arr := read_array a in
  act_ret (match array_get arr idx with
           | Some _ => Some (a, Z.to_nat (default 0 idx))
           | None => None
           end).

(** Reading a property of the object in a slot. *)
Definition get_property {B : Type} (slot : nat * nat) (f : IItemModified → B)
    (dflt : B) : Action B :=
  let* arr := read_array slot.1 in
  act_ret (from_option f dflt (arr !! slot.2)).

(** [obj.prop = v]: assigning to a property of [undefined] is a
    [TypeError]; otherwise the object in the slot is updated in place. *)
Definition set_property (target : option (nat * nat))
    (upd : IItemModified → IItemModified) : Action unit :=
  match target with
  | None => throw TypeError
  | Some (a, i) =>
      λ s, ({| heap := alter (λ arr, alter upd i arr) a (heap s);
               modifiedItems := modifiedItems s;
               selectedItemIndex := selectedItemIndex s;
               summaryInits := summaryInits s |}, Normal tt)
  end.

(** Modelled from the spec: [useSummaryStore] is not part of the sources;
    [initSummaryStore] is handed a view of the item list and returns
    nothing. Each call is recorded with the address of the array it was
    handed. *)
Definition initSummaryStore (a : nat) : Action unit :=
  λ s, ({| heap := heap s;
           modifiedItems := modifiedItems s;
           selectedItemIndex := selectedItemIndex s;
           summaryInits := summaryInits s ++ [a] |}, Normal tt).

(** ** The methods of the store *)

(** The object literal of [setCopyOfItems]: the raw fields, then the
    three added keys with their defaults. *)
Definition withDefaults (it : IItem) : IItemModified :=
  {| item := it; score := None; comment := None; fulfilled := true |}.

Definition setCopyOfItems (payload : list IItem) : Action unit :=
  let* fresh_items := new_array (map withDefaults payload) in
  write_modifiedItems fresh_items >>
  let* current := read_modifiedItems in
  initSummaryStore current.

Definition findIndexOfItem (index : Z) : Action unit :=
  let* a := read_modifiedItems in
  let* arr := read_array a in
  write_selectedItemIndex
    (Some (findIndex (λ it, bool_decide (itemId (item it) = index)) arr)).

Definition set_score (v : option number) (it : IItemModified) : IItemModified :=
  {| item := item it; score := v; comment := comment it; fulfilled := fulfilled it |}.

Definition set_comment (v : option string) (it : IItemModified) : IItemModified :=
  {| item := item it; score := score it; comment := v; fulfilled := fulfilled it |}.

Definition set_fulfilled (v : bool) (it : IItemModified) : IItemModified :=
  {| item := item it; score := score it; comment := comment it; fulfilled := v |}.

Definition updateScoreOfItem (new_score : number) (id : Z) : Action unit :=
  findIndexOfItem id >>
  let* a := read_modifiedItems in
  let* i := read_selectedItemIndex in
  let* target := element a i in
  set_property target (set_score (Some new_score)).

Definition updateCommentOfItem (new_comment : string) (id : Z) : Action unit :=
  findIndexOfItem id >>
  let* a := read_modifiedItems in
  let* i := read_selectedItemIndex in
  let* target := element a i in
  set_property target (set_comment (Some new_comment)).

Definition changeItemFulfilled (id : Z) : Action unit :=
  findIndexOfItem id >>
  let* a := read_modifiedItems in
  let* i := read_selectedItemIndex in
  let* itemFulfilledState := element a i in
  match itemFulfilledState with
  | Some obj =>
      let* was := get_property obj fulfilled true in
      set_property (Some obj) (set_fulfilled (negb was)) >>
      set_property (Some obj) (set_score None)
  | None => act_ret tt
  end.

Definition resetStore : Action unit :=
  let* empty := new_array [] in
  write_modifiedItems empty.

(** ** Computed views *)

Definition itemTopicKeys (s : Store) : list string :=
  spread (JsSet_new (map (λ it, topicKey (item it)) (items s))).

(** The object built by the reduce of [itemTopicTitles]: each spread copies
    the accumulator and the computed key is set last. [None] as a value
    stands for [undefined], the result of [?.topicTitle] on a failed [find]. *)
Definition itemTopicTitles (s : Store) : gmap string (option string) :=
  reduce (λ acc k,
            <[k := topicTitle ∘ item <$>
                     find_first (λ it, bool_decide (topicKey (item it) = k)) (items s)]> acc)
         ∅ (itemTopicKeys s).

(** The counters start at the integer 0 and grow by one per item; an array
    holds fewer than 2^32 elements, so each value is an exact number and
    the counters are kept as naturals. *)
Definition getNumberOfItemsPerTopic (k : string) (s : Store) : nat :=
  reduce (λ acc it, if bool_decide (topicKey (item it) = k) then S acc else acc)
         0%nat (items s).

Definition getNumberOfAnsweredItemsPerTopic (k : string) (s : Store) : nat :=
  reduce (λ acc it,
            if bool_decide (topicKey (item it) = k)
               && (bool_decide (score it ≠ None) || bool_decide (fulfilled it = false))
            then S acc else acc)
         0%nat (items s).

(** ** Progress percentages *)

(** The strings [Number.prototype.toFixed] can return, by what they
    denote: ["NaN"], a signed ["Infinity"], a decimal with exactly two
    fraction digits (given by its count of hundredths), or, from 10^21
    on, the shortest decimal that reads back as the same number. *)
Inductive NumeralString : Type :=
| NaNString
| InfinityString (negative : bool)
| FixedString (negative : bool) (hundredths : N)
| ShortestString (x : number).

(** The integer nearest to [m * 2^e * 100]; of two nearest integers
    [toFixed] picks the larger. *)
Definition nearest_hundredths (m : positive) (e : Z) : Z :=
  if decide (0 ≤ e) then Z.pos m * 100 * 2 ^ e
  else (2 * (Z.pos m * 100) + 2 ^ (- e)) `div` 2 ^ (- e + 1).

(** [10^21 <= m * 2^e] *)
Definition at_least_1e21 (m : positive) (e : Z) : bool :=
  if decide (0 ≤ e) then bool_decide (10 ^ 21 ≤ Z.pos m * 2 ^ e)
  else bool_decide (10 ^ 21 * 2 ^ (- e) ≤ Z.pos m).

(** [x.toFixed(2)] *)
Definition toFixed2 (x : number) : NumeralString :=
  match x with
  | S754_nan => NaNString
  | S754_infinity sg => InfinityString sg
  | S754_zero _ => FixedString false 0
  | S754_finite sg m e =>
      if at_least_1e21 m e then ShortestString x
      else FixedString sg (Z.to_N (nearest_hundredths m e))
  end.

(** [Number(str)]: the number nearest to the decimal, ties to even. The
    quotient of the two integers is rounded once, by the division. *)
Definition Number (str : NumeralString) : number :=
  match str with
  | NaNString => S754_nan
  | InfinityString sg => S754_infinity sg
  | ShortestString x => x
  | FixedString sg N0 => S754_zero sg
  | FixedString sg (Npos h) =>
      SFdiv prec emax (S754_finite sg h 0) (S754_finite false 100 0)
  end.

Definition getProgressPercent (value total : number) : number :=
  Number (toFixed2 (num_mul (num_div value total) (of_Z 100))).

Section Progress.

(** The layout helper [getProgress] of [@/utils/helpers] is not part of
    the sources: it is a parameter of the progress views. *)
Variable getProgress : nat → list number.

Definition totalProgress (s : Store) : list IProgress :=
  let numberOfTopics := length (itemTopicKeys s) in
  let progress := getProgress numberOfTopics in
  imap (λ index k,
          let title := mjoin (itemTopicTitles s !! k) in
          let width := progress !! index in
          let numberOfItemsPerTopic := getNumberOfItemsPerTopic k s in
          let numberOfAnsweredItemsPerTopic := getNumberOfAnsweredItemsPerTopic k s in
          let percent :=
            getProgressPercent (of_Z (Z.of_nat numberOfAnsweredItemsPerTopic))
                               (of_Z (Z.of_nat numberOfItemsPerTopic)) in
          {| progressTopicKey := k;
             progressTopicTitle := title;
             widthPercentage := width;
             progressPercent := percent |})
       (itemTopicKeys s).

Definition isQuizCompleted (s : Store) : bool :=
  every (λ entry, strict_eq (progressPercent entry) (of_Z 100)) (totalProgress s).

End Progress.

(** ** Grouping by topic *)

(** One element of [itemsByTopics]. The [items] of a group are the item
    objects of the registry themselves, listed here by their value. *)
Record ItemsByTopics : Type := mkGroup {
  groupTopicKey : string;
  groupItems : list IItemModified;
  groupId : Z
}.

(** [arr.map(f)] for a callback that receives the element and its index
    and writes to a cell while it runs: the elements are visited from the
    first to the last and the cell is threaded through the calls. *)
Fixpoint map_with_index_from {A B C : Type} (f : A → nat → C → C * B)
    (index : nat) (arr : list A) (cell : C) : C * list B :=
  match arr with
  | [] => (cell, [])
  | x :: rest =>
      let '(cell1, y) := f x index cell in
      let '(cell2, ys) := map_with_index_from f (S index) rest cell1 in
      (cell2, y :: ys)
  end.

(** [id.toString()] for an integer id: its decimal digits. *)
Definition toString (id : Z) : string := pretty id.

Section Groups.

(** The constant [NUMBER_OF_STATIC_TOPICS] of [@/utils/constants] is not
    part of the sources: it is a parameter, an integer as the ids are. *)
Variable NUMBER_OF_STATIC_TOPICS : Z.

(** The computed [itemsByTopics]: it empties [isItemsTopicExpanded], then
    builds one group per topic key and marks each group id as collapsed.
    The result pairs the new value of [isItemsTopicExpanded] with the
    groups. *)
Definition itemsByTopics (s : Store) : gmap string bool * list ItemsByTopics :=
  map_with_index_from
    (λ k index isItemsTopicExpanded,
       let id := Z.of_nat index + 1 + NUMBER_OF_STATIC_TOPICS in
       (<[toString id := false]> isItemsTopicExpanded,
        {| groupTopicKey := k;
           groupItems := filter (λ it, topicKey (item it) = k) (items s);
           groupId := id |}))
    0%nat (itemTopicKeys s) ∅.

End Groups.

(** The group built for the key [k] found at position [i]. *)
Definition group_of (N : Z) (s : Store) (i : nat) (k : string) : ItemsByTopics :=
  {| groupTopicKey := k;
     groupItems := filter (λ it, topicKey (item it) = k) (items s);
     groupId := Z.of_nat i + 1 + N |}.

(** ** Vocabulary of the statements *)

(** The first slot whose item carries [id], as [findIndexOfItem] scans. *)
Definition first_with_id (id : Z) (arr : list IItemModified)
    : option (nat * IItemModified) :=
  list_find (λ it, bool_decide (itemId (item it) = id) = true) arr.

Definition ids (s : Store) : list Z := (λ it, itemId (item it)) <$> items s.

Definition with_selected (i : Z) (s : Store) : Store :=
  {| heap := heap s; modifiedItems := modifiedItems s;
     selectedItemIndex := Some i; summaryInits := summaryInits s |}.

Definition with_item (upd : IItemModified → IItemModified) (i : nat) (s : Store) : Store :=
  {| heap := alter (alter upd i) (modifiedItems s) (heap s);
     modifiedItems := modifiedItems s;
     selectedItemIndex := selectedItemIndex s;
     summaryInits := summaryInits s |}.

(** An item counts as answered once it has a score or is marked as not
    fulfilled. *)
Definition answered (it : IItemModified) : Prop :=
  score it ≠ None ∨ fulfilled it = false.

Global Instance answered_dec it : Decision (answered it).
Proof. unfold answered. apply _. Defined.

(** The store used to illustrate the statements below: three loaded items,
    two of topic A and one of topic B. *)
Definition sample : Store :=
  exec (setCopyOfItems
          [ {| itemId := 1; topicKey := "A"; topicTitle := "Topic A"; display := [] |};
            {| itemId := 2; topicKey := "A"; topicTitle := "Topic A"; display := [] |};
            {| itemId := 3; topicKey := "B"; topicTitle := "Topic B"; display := [] |} ])
       initialStore.

(** A registry with many items of a single topic: [m] items with ids 1
    to [m] are loaded, then [changeItemFulfilled] is called for the ids 1
    to [n]. *)
Definition rawA (n : Z) : IItem :=
  {| itemId := n; topicKey := "A"; topicTitle := "Topic A"; display := [] |}.

Definition crowdedRun (m n : Z) : Store :=
  foldl (λ s id, exec (changeItemFulfilled id) s)
        (exec (setCopyOfItems (map rawA (seqZ 1 m))) initialStore)
        (seqZ 1 n).

(** What that run leaves in the registry: the items with an id up to [n]
    are not fulfilled, the others still are, and none has a score. *)
Definition crowdedItem (n : Z) (id : Z) : IItemModified :=
  {| item := rawA id; score := None; comment := None;
     fulfilled := bool_decide (n < id) |}.

Definition crowded (m n : Z) : list IItemModified := crowdedItem n <$> seqZ 1 m.

Definition holding (arr : list IItemModified) : Store :=
  {| heap := {[ 1%nat := arr ]}; modifiedItems := 1%nat;
     selectedItemIndex := None; summaryInits := [] |}.

(** The raw item and the comment are kept, [fulfilled] is negated and the
    score is dropped: what [changeItemFulfilled] leaves of an item. *)
Definition toggled (it : IItemModified) : IItemModified :=
  {| item := item it; score := None; comment := comment it;
     fulfilled := negb (fulfilled it) |}.

(** Rewriting the first item that carries [id], if there is one. *)
Definition on_first (id : Z) (upd : IItemModified → IItemModified)
    (arr : list IItemModified) : list IItemModified :=
  match first_with_id id arr with
  | Some (i, _) => alter upd i arr
  | None => arr
  end.

(** An update that leaves the raw item alone. *)
Definition keeps_raw (upd : IItemModified → IItemModified) : Prop :=
  ∀ it, item (upd it) = item it.

(** What no mutating method touches: the raw items in their order, hence
    the topics, their titles and sizes, and the summary store. *)
Definition keeps_topics (op : Action unit) (s : Store) : Prop :=
  item <$> items (exec op s) = item <$> items s ∧
  itemTopicKeys (exec op s) = itemTopicKeys s ∧
  itemTopicTitles (exec op s) = itemTopicTitles s ∧
  (∀ k, getNumberOfItemsPerTopic k (exec op s) = getNumberOfItemsPerTopic k s) ∧
  modifiedItems (exec op s) = modifiedItems s ∧
  summaryInits (exec op s) = summaryInits s.

(** The sample store once every item is answered: items 1 and 2 have a
    score and item 3 is marked as not fulfilled. *)
Definition sampleAnswered : Store :=
  exec (changeItemFulfilled 3)
       (exec (updateScoreOfItem (of_Z 3) 2)
             (exec (updateScoreOfItem (of_Z 5) 1) sample)).

(** The first item of the sample store, as loaded. *)
Definition sampleFirst : IItemModified :=
  withDefaults {| itemId := 1; topicKey := "A"; topicTitle := "Topic A"; display := [] |}.

(** * Properties *)

(** ** Array helpers *)

Section ArrayFacts.
Context {A : Type} (p : A → bool).

Lemma findIndex_from_find (k : Z) (arr : list A) :
  findIndex_from p k arr =
    match list_find (λ x, p x = true) arr with
    | Some (i, _) => k + Z.of_nat i
    | None => -1
    end.
Proof.
  revert k; induction arr as [|x arr IH]; intros k; simpl; [done|].
  case_decide as Hx.
  - rewrite Hx. lia.
  - apply not_true_is_false in Hx. rewrite Hx, IH.
    destruct (list_find _ arr) as [[i y]|]; simpl; lia.
Qed.

Lemma findIndex_found (arr : list A) (i : nat) (x : A) :
  list_find (λ x, p x = true) arr = Some (i, x) →
  findIndex p arr = Z.of_nat i ∧ array_get arr (Some (findIndex p arr)) = Some x.
Proof.
  intros Hf. unfold findIndex. rewrite findIndex_from_find, Hf.
  split; [lia|]. unfold array_get. rewrite decide_True by lia.
  replace (Z.to_nat (0 + Z.of_nat i)) with i by lia.
  by apply list_find_Some in Hf as (? & _).
Qed.

Lemma findIndex_missing (arr : list A) :
  list_find (λ x, p x = true) arr = None →
  findIndex p arr = -1 ∧ array_get arr (Some (findIndex p arr)) = None.
Proof.
  intros Hf. unfold findIndex. rewrite findIndex_from_find, Hf.
  split; [done|]. unfold array_get. by rewrite decide_False by lia.
Qed.
End ArrayFacts.

(** A counting reduce is the length of a filter. *)
Lemma reduce_count {A : Type} (p : A → bool) (arr : list A) :
  reduce (λ acc x, if p x then S acc else acc) 0%nat arr
  = length (filter (λ x, p x = true) arr).
Proof.
  unfold reduce.
  enough (∀ n, foldl (λ acc x, if p x then S acc else acc) n arr
               = (n + length (filter (λ x, p x = true) arr))%nat) as H by apply (H 0%nat).
  induction arr as [|x arr IH]; intros n; simpl; [lia|].
  rewrite IH, filter_cons. destruct (p x) eqn:Hx.
  - rewrite decide_True by done. simpl. lia.
  - rewrite decide_False by done. lia.
Qed.

(** ** Looking an item up by its id *)

Lemma first_with_id_Some id arr i it :
  first_with_id id arr = Some (i, it) ↔
    arr !! i = Some it ∧ itemId (item it) = id ∧
    ∀ j it', arr !! j = Some it' → (j < i)%nat → itemId (item it') ≠ id.
Proof.
  unfold first_with_id. rewrite list_find_Some.
  rewrite bool_decide_eq_true.
  split; intros (? & ? & Hmin); (split_and!; [done..|]);
    intros j it' Hj Hlt; specialize (Hmin j it' Hj Hlt);
    by rewrite bool_decide_eq_true in *.
Qed.

Lemma first_with_id_None id arr :
  first_with_id id arr = None ↔ id ∉ (λ it, itemId (item it)) <$> arr.
Proof.
  unfold first_with_id. rewrite list_find_None, Forall_forall.
  rewrite list_elem_of_fmap. split.
  - intros H (it & -> & Hin). apply (H it Hin). by rewrite bool_decide_eq_true.
  - intros H it Hin Hid. apply H. exists it. by rewrite bool_decide_eq_true in Hid.
Qed.

Lemma first_with_id_present id arr :
  id ∈ (λ it, itemId (item it)) <$> arr →
  ∃ i it, first_with_id id arr = Some (i, it).
Proof.
  intros Hin. destruct (first_with_id id arr) as [[i it]|] eqn:Hf; [eauto|].
  by apply first_with_id_None in Hf.
Qed.

(** ** What running each method does *)

Lemma items_with_selected i s : items (with_selected i s) = items s.
Proof. done. Qed.

Lemma items_with_item upd i s :
  items (with_item upd i s) = alter upd i (items s).
Proof.
  unfold items, with_item; simpl. rewrite lookup_alter_eq.
  by destruct (heap s !! modifiedItems s).
Qed.

Lemma with_item_compose f g i s :
  with_item f i (with_item g i s) = with_item (f ∘ g) i s.
Proof.
  unfold with_item; simpl. f_equal.
  rewrite alter_alter_eq. apply alter_ext. intros arr _; simpl.
  apply list_alter_alter_eq.
Qed.

Ltac run_method :=
  unfold updateScoreOfItem, updateCommentOfItem, changeItemFulfilled,
    findIndexOfItem, element, get_property, set_property, read_modifiedItems,
    read_selectedItemIndex, write_selectedItemIndex, read_array, act_bind,
    act_ret, throw;
  cbn [heap modifiedItems selectedItemIndex summaryInits fst snd];
  change (default [] (heap ?s !! modifiedItems ?s)) with (items s).

Lemma updateScoreOfItem_found v id s i it :
  first_with_id id (items s) = Some (i, it) →
  updateScoreOfItem v id s
  = (with_item (set_score (Some v)) i (with_selected (Z.of_nat i) s), Normal tt).
Proof.
  intros Hf. apply findIndex_found in Hf as [Hi Hget].
  run_method. rewrite Hget, Hi. simpl.
  by rewrite Nat2Z.id.
Qed.

Lemma updateScoreOfItem_missing v id s :
  first_with_id id (items s) = None →
  updateScoreOfItem v id s = (with_selected (-1) s, Thrown TypeError).
Proof.
  intros Hf. apply findIndex_missing in Hf as [Hi Hget].
  run_method. by rewrite Hget, Hi.
Qed.

Lemma updateCommentOfItem_found c id s i it :
  first_with_id id (items s) = Some (i, it) →
  updateCommentOfItem c id s
  = (with_item (set_comment (Some c)) i (with_selected (Z.of_nat i) s), Normal tt).
Proof.
  intros Hf. apply findIndex_found in Hf as [Hi Hget].
  run_method. rewrite Hget, Hi. simpl.
  by rewrite Nat2Z.id.
Qed.

Lemma updateCommentOfItem_missing c id s :
  first_with_id id (items s) = None →
  updateCommentOfItem c id s = (with_selected (-1) s, Thrown TypeError).
Proof.
  intros Hf. apply findIndex_missing in Hf as [Hi Hget].
  run_method. by rewrite Hget, Hi.
Qed.

Lemma changeItemFulfilled_found id s i it :
  first_with_id id (items s) = Some (i, it) →
  changeItemFulfilled id s
  = (with_item (set_score None ∘ set_fulfilled (negb (fulfilled it))) i
       (with_selected (Z.of_nat i) s), Normal tt).
Proof.
  intros Hf. pose proof Hf as Hlook. apply first_with_id_Some in Hlook as (Hlook & _).
  apply findIndex_found in Hf as [Hi Hget].
  run_method. rewrite Hget, Hi. simpl. rewrite Nat2Z.id.
  change (default [] (heap s !! modifiedItems s)) with (items s).
  rewrite Hlook. simpl.
  rewrite <- with_item_compose. reflexivity.
Qed.

Lemma changeItemFulfilled_missing id s :
  first_with_id id (items s) = None →
  changeItemFulfilled id s = (with_selected (-1) s, Normal tt).
Proof.
  intros Hf. apply findIndex_missing in Hf as [Hi Hget].
  run_method. by rewrite Hget, Hi.
Qed.

Lemma setCopyOfItems_run payload s :
  setCopyOfItems payload s
  = let a := fresh (dom (heap s)) in
    ({| heap := <[a := map withDefaults payload]> (heap s);
        modifiedItems := a;
        selectedItemIndex := selectedItemIndex s;
        summaryInits := summaryInits s ++ [a] |}, Normal tt).
Proof. reflexivity. Qed.

Lemma items_setCopyOfItems payload s :
  items (exec (setCopyOfItems payload) s) = map withDefaults payload.
Proof.
  unfold exec. rewrite setCopyOfItems_run. unfold items; simpl.
  by rewrite lookup_insert_eq.
Qed.

(** ** Topic keys *)

Lemma JsSet_new_snoc l x : JsSet_new (l ++ [x]) = JsSet_add (JsSet_new l) x.
Proof. unfold JsSet_new. by rewrite foldl_snoc. Qed.

Lemma JsSet_new_elem k l : k ∈ JsSet_new l ↔ k ∈ l.
Proof.
  revert k. induction l as [|x l IH] using rev_ind; intros k; [done|].
  rewrite JsSet_new_snoc. unfold JsSet_add. case_decide as Hx.
  - apply IH in Hx. rewrite IH, elem_of_app, list_elem_of_singleton.
    split; [auto|]. by intros [?| ->].
  - by rewrite !elem_of_app, IH.
Qed.

Lemma JsSet_new_NoDup l : NoDup (JsSet_new l).
Proof.
  induction l as [|x l IH] using rev_ind; [constructor|].
  rewrite JsSet_new_snoc. unfold JsSet_add. case_decide as Hx; [done|].
  apply NoDup_app. split_and!; [done| |apply NoDup_singleton].
  intros y Hy ->%list_elem_of_singleton. done.
Qed.

(** Members come out in the order of their first occurrence: whoever is
    listed earlier already occurs in the input before the other one does. *)
Lemma JsSet_new_order l i j a b :
  JsSet_new l !! i = Some a → JsSet_new l !! j = Some b → (i < j)%nat →
  ∃ p, l !! p = Some a ∧ b ∉ take p l.
Proof.
  revert i j a b. induction l as [|x l IH] using rev_ind; intros i j a b; [done|].
  rewrite JsSet_new_snoc. unfold JsSet_add. case_decide as Hx.
  - intros Ha Hb Hij. destruct (IH _ _ _ _ Ha Hb Hij) as (p & Hp & Hnot).
    exists p. pose proof (lookup_lt_Some _ _ _ Hp).
    rewrite lookup_app_l by done. rewrite take_app_le by lia. done.
  - intros Ha Hb Hij.
    pose proof (lookup_lt_Some _ _ _ Hb) as Hlen. rewrite length_app in Hlen. simpl in Hlen.
    rewrite lookup_app_l in Ha by lia.
    destruct (decide (j < length (JsSet_new l))%nat) as [Hj|Hj].
    + rewrite lookup_app_l in Hb by done.
      destruct (IH _ _ _ _ Ha Hb Hij) as (p & Hp & Hnot).
      exists p. pose proof (lookup_lt_Some _ _ _ Hp).
      rewrite lookup_app_l by done. rewrite take_app_le by lia. done.
    + rewrite lookup_app_r in Hb by lia.
      replace (j - length (JsSet_new l))%nat with 0%nat in Hb by lia.
      simpl in Hb. injection Hb as <-.
      assert (a ∈ l) as (p & Hp)%list_elem_of_lookup.
      { apply JsSet_new_elem. by eapply list_elem_of_lookup_2. }
      exists p. pose proof (lookup_lt_Some _ _ _ Hp).
      rewrite lookup_app_l by done. rewrite take_app_le by lia.
      split; [done|]. intros Hin%(subseteq_take p l).
      apply Hx. by apply JsSet_new_elem.
Qed.

Lemma itemTopicKeys_elem k s :
  k ∈ itemTopicKeys s ↔ ∃ it, it ∈ items s ∧ topicKey (item it) = k.
Proof.
  unfold itemTopicKeys, spread. rewrite JsSet_new_elem, list_elem_of_fmap.
  split; intros (it & H1 & H2); exists it; by split.
Qed.

Lemma itemTopicKeys_NoDup s : NoDup (itemTopicKeys s).
Proof. apply JsSet_new_NoDup. Qed.

(** ** Counting *)

Lemma getNumberOfItemsPerTopic_filter k s :
  getNumberOfItemsPerTopic k s
  = length (filter (λ it, topicKey (item it) = k) (items s)).
Proof.
  unfold getNumberOfItemsPerTopic.
  rewrite (reduce_count (λ it, bool_decide (topicKey (item it) = k))).
  f_equal. apply list_filter_iff. intros it. apply bool_decide_eq_true.
Qed.

Lemma getNumberOfAnsweredItemsPerTopic_filter k s :
  getNumberOfAnsweredItemsPerTopic k s
  = length (filter (λ it, topicKey (item it) = k ∧ answered it) (items s)).
Proof.
  unfold getNumberOfAnsweredItemsPerTopic.
  rewrite (reduce_count
             (λ it, bool_decide (topicKey (item it) = k)
                    && (bool_decide (score it ≠ None) || bool_decide (fulfilled it = false)))).
  f_equal. apply list_filter_iff. intros it. unfold answered.
  rewrite andb_true_iff, orb_true_iff, !bool_decide_eq_true. done.
Qed.

Section CountByKey.
Context {A : Type} (key : A → string).

Lemma count_key_cons (k : string) (ks : list string) (arr : list A) :
  k ∉ ks →
  length (filter (λ x, key x ∈ k :: ks) arr)
  = (length (filter (λ x, key x = k) arr)
     + length (filter (λ x, key x ∈ ks) arr))%nat.
Proof.
  intros Hk. induction arr as [|x arr IH]; [done|].
  rewrite !filter_cons.
  destruct (decide (key x = k)) as [Heq|Hne].
  - rewrite decide_True by (rewrite Heq; left).
    rewrite decide_False by (by rewrite Heq). simpl. lia.
  - destruct (decide (key x ∈ ks)) as [Hin|Hout].
    + rewrite decide_True by (by right). simpl. lia.
    + rewrite decide_False; [done|].
      intros [?|?]%elem_of_cons; done.
Qed.

Lemma count_by_key (ks : list string) (arr : list A) :
  NoDup ks →
  sum_list ((λ k, length (filter (λ x, key x = k) arr)) <$> ks)
  = length (filter (λ x, key x ∈ ks) arr).
Proof.
  induction 1 as [|k ks Hk _ IH].
  - simpl. induction arr as [|x arr IHarr]; [done|].
    rewrite filter_cons, decide_False; [done|]. apply not_elem_of_nil.
  - rewrite fmap_cons, count_key_cons, <- IH by done. reflexivity.
Qed.

Lemma filter_all (P : A → Prop) `{!∀ x, Decision (P x)} (arr : list A) :
  (∀ x, x ∈ arr → P x) → filter P arr = arr.
Proof.
  induction arr as [|x arr IH]; intros HP; [done|].
  rewrite filter_cons, decide_True by (apply HP; left).
  f_equal. apply IH. intros y Hy. apply HP. by right.
Qed.
End CountByKey.

(** ** Loading *)

Lemma keys_after_load (L : list IItem) (s : Store) :
  itemTopicKeys (exec (setCopyOfItems L) s) = JsSet_new (map topicKey L).
Proof.
  unfold itemTopicKeys, spread. rewrite items_setCopyOfItems.
  f_equal. rewrite map_map. reflexivity.
Qed.

(** C3: after [setCopyOfItems L] the computed [itemTopicKeys] lists every
    topic key of [L] exactly once (no duplicates, same members), and the
    keys are in the order of their first occurrence in [L]: whenever [a]
    is listed before [b], [a] occurs in [L] at a position before which
    [b] does not occur. No sorting is involved. *)
Theorem itemTopicKeys_after_load (L : list IItem) (s : Store) :
  let ks := itemTopicKeys (exec (setCopyOfItems L) s) in
  let input := map topicKey L in
  NoDup ks ∧
  (∀ k, k ∈ ks ↔ k ∈ input) ∧
  (∀ i j a b, ks !! i = Some a → ks !! j = Some b → (i < j)%nat →
     ∃ p, input !! p = Some a ∧ b ∉ take p input).
Proof.
  intros ks input. subst ks input. rewrite keys_after_load.
  split_and!.
  - apply JsSet_new_NoDup.
  - intros k. apply JsSet_new_elem.
  - apply JsSet_new_order.
Qed.

(** The keys keep the order of the input even when it is not sorted. *)
Example itemTopicKeys_unsorted :
  itemTopicKeys
    (exec (setCopyOfItems
             [ {| itemId := 1; topicKey := "B"; topicTitle := "b"; display := [] |};
               {| itemId := 2; topicKey := "A"; topicTitle := "a"; display := [] |};
               {| itemId := 3; topicKey := "B"; topicTitle := "b"; display := [] |} ])
          initialStore)
  = ["B"; "A"]%string.
Proof. reflexivity. Qed.

(** C5: [setCopyOfItems L] returns normally and leaves in the registry one
    item per element of [L], in the same order, each made of the raw item
    with [score] and [comment] absent and [fulfilled] true, whatever the
    registry held before. It hands the summary store one array, once, and
    that array is the registry's own: the address recorded is the one
    [modifiedItems] now holds, it is a new array (the arrays that existed
    before are untouched), and a later write through the registry is seen
    through the address the summary store received. *)
Theorem setCopyOfItems_spec (L : list IItem) (s : Store) :
  let s' := exec (setCopyOfItems L) s in
  let normalized :=
    map (λ r, {| item := r; score := None; comment := None; fulfilled := true |}) L in
  result (setCopyOfItems L) s = Normal tt ∧
  items s' = normalized ∧
  length (items s') = length L ∧
  summaryInits s' = summaryInits s ++ [modifiedItems s'] ∧
  heap s' !! modifiedItems s' = Some normalized ∧
  (modifiedItems s' ∉ dom (heap s)) ∧
  (∀ a, a ∈ dom (heap s) → heap s' !! a = heap s !! a) ∧
  (∀ v id, heap (exec (updateScoreOfItem v id) s') !! modifiedItems s'
           = Some (items (exec (updateScoreOfItem v id) s'))).
Proof.
  intros s' normalized. subst s' normalized.
  assert (Hfresh : fresh (dom (heap s)) ∉ dom (heap s)) by apply is_fresh.
  unfold exec, result. rewrite setCopyOfItems_run. cbn [fst snd].
  set (a := fresh (dom (heap s))) in *.
  set (s' := mkStore _ _ _ _).
  assert (Hs' : heap s' !! a = Some (map withDefaults L)).
  { subst s'. simpl. apply lookup_insert_eq. }
  assert (Hitems : items s' = map withDefaults L).
  { unfold items. subst s'; simpl. by rewrite lookup_insert_eq. }
  split_and!; try done.
  - rewrite Hitems. apply length_map.
  - intros b Hb. subst s'; simpl. apply lookup_insert_ne. by intros ->.
  - intros v id.
    destruct (first_with_id id (items s')) as [[i it]|] eqn:Hf.
    + rewrite (updateScoreOfItem_found _ _ _ _ _ Hf). cbn [fst].
      rewrite items_with_item, items_with_selected.
      unfold with_item, with_selected; simpl.
      rewrite lookup_alter_eq, lookup_insert_eq. simpl.
      rewrite Hitems. done.
    + rewrite (updateScoreOfItem_missing _ _ _ Hf). cbn [fst].
      rewrite items_with_selected. simpl. by rewrite Hitems.
Qed.

(** ** Counting per topic *)

(** C6: the counts [getNumberOfItemsPerTopic k], added up over the keys of
    [itemTopicKeys], give the number of items in the registry. *)
Theorem count_sum_is_size (s : Store) :
  sum_list ((λ k, getNumberOfItemsPerTopic k s) <$> itemTopicKeys s)
  = length (items s).
Proof.
  erewrite list_fmap_ext; [|intros i k _; apply getNumberOfItemsPerTopic_filter].
  rewrite count_by_key by apply itemTopicKeys_NoDup.
  f_equal. apply filter_all. intros it Hit.
  apply itemTopicKeys_elem. by exists it.
Qed.

(** C7: [getNumberOfAnsweredItemsPerTopic k] is the number of items whose
    topic key is [k] and that have a score or are not fulfilled; an item
    of topic [k] that is not fulfilled is counted even without a score. *)
Theorem answered_count_spec (s : Store) (k : string) :
  getNumberOfAnsweredItemsPerTopic k s
  = length (filter (λ it, topicKey (item it) = k ∧
                          (score it ≠ None ∨ fulfilled it = false)) (items s))
  ∧ (∀ it, it ∈ items s → topicKey (item it) = k →
           fulfilled it = false → score it = None →
           it ∈ filter (λ it, topicKey (item it) = k ∧
                              (score it ≠ None ∨ fulfilled it = false)) (items s)
           ∧ (0 < getNumberOfAnsweredItemsPerTopic k s)%nat).
Proof.
  split; [apply getNumberOfAnsweredItemsPerTopic_filter|].
  intros it Hin Hk Hf _.
  assert (it ∈ filter (λ it, topicKey (item it) = k ∧ answered it) (items s)) as Hfil.
  { apply list_elem_of_filter. split; [|done]. split; [done|by right]. }
  split; [done|].
  rewrite getNumberOfAnsweredItemsPerTopic_filter.
  destruct (filter _ (items s)); [by apply elem_of_nil in Hfil|simpl; lia].
Qed.

(** ** Progress *)

Lemma totalProgress_entry getProgress s e :
  e ∈ totalProgress getProgress s →
  progressTopicKey e ∈ itemTopicKeys s ∧
  progressPercent e
  = getProgressPercent
      (of_Z (Z.of_nat (getNumberOfAnsweredItemsPerTopic (progressTopicKey e) s)))
      (of_Z (Z.of_nat (getNumberOfItemsPerTopic (progressTopicKey e) s))).
Proof.
  unfold totalProgress. intros (i & Hi)%list_elem_of_lookup_1.
  rewrite list_lookup_imap in Hi.
  destruct (itemTopicKeys s !! i) as [k|] eqn:Hk; [|done].
  simpl in Hi. injection Hi as <-. simpl.
  split; [|done]. by eapply list_elem_of_lookup_2.
Qed.

(** C9: every key of [itemTopicKeys] has at least one item, so each entry
    of [totalProgress] gets its percentage from a call of
    [getProgressPercent] whose total is a count of at least one (and whose
    value does not exceed the total): no call divides by zero. *)
Theorem totalProgress_total_positive (getProgress : nat → list number) (s : Store) :
  (∀ k, k ∈ itemTopicKeys s → (0 < getNumberOfItemsPerTopic k s)%nat) ∧
  (∀ e, e ∈ totalProgress getProgress s →
     ∃ value total : nat,
       total = getNumberOfItemsPerTopic (progressTopicKey e) s ∧
       value = getNumberOfAnsweredItemsPerTopic (progressTopicKey e) s ∧
       progressPercent e = getProgressPercent (of_Z (Z.of_nat value)) (of_Z (Z.of_nat total)) ∧
       (0 < total)%nat ∧ (value ≤ total)%nat) ∧
  length (totalProgress getProgress s) = length (itemTopicKeys s).
Proof.
  assert (Hpos : ∀ k, k ∈ itemTopicKeys s → (0 < getNumberOfItemsPerTopic k s)%nat).
  { intros k (it & Hin & Hk)%itemTopicKeys_elem.
    rewrite getNumberOfItemsPerTopic_filter.
    assert (it ∈ filter (λ it, topicKey (item it) = k) (items s)) as Hfil
      by (by apply list_elem_of_filter).
    destruct (filter _ (items s)); [by apply elem_of_nil in Hfil|simpl; lia]. }
  split_and!; [done| |].
  - intros e (Hk & Hp)%totalProgress_entry.
    eexists _, _. split_and!; [done..|by apply Hpos|].
    rewrite getNumberOfAnsweredItemsPerTopic_filter, getNumberOfItemsPerTopic_filter.
    generalize (items s). intros arr.
    induction arr as [|x arr IH]; [done|].
    rewrite !filter_cons.
    destruct (decide (topicKey (item x) = _ ∧ _)) as [[Hx _]|_];
      destruct (decide (topicKey (item x) = _)); simpl; try lia; done.
  - unfold totalProgress. apply length_imap.
Qed.

(** ** Mutating an item *)

Lemma alter_as_insert {A : Type} (f : A → A) (l : list A) (i : nat) (x : A) :
  l !! i = Some x → alter f i l = <[i := f x]> l.
Proof.
  intros Hx. rewrite list_insert_alter.
  apply list_alter_ext; [|done]. intros y Hy. congruence.
Qed.

(** C4: for an id carried by some item, [changeItemFulfilled] returns
    normally and rewrites the first item with that id, and only it: its
    [fulfilled] flag is negated and its [score] becomes absent, whatever
    both were before; the raw fields and the comment stay. *)
Theorem changeItemFulfilled_present (s : Store) (id : Z) :
  id ∈ ids s →
  ∃ i it,
    items s !! i = Some it ∧ itemId (item it) = id ∧
    (∀ j it', items s !! j = Some it' → (j < i)%nat → itemId (item it') ≠ id) ∧
    result (changeItemFulfilled id) s = Normal tt ∧
    items (exec (changeItemFulfilled id) s)
    = <[i := {| item := item it; score := None; comment := comment it;
               fulfilled := negb (fulfilled it) |}]> (items s) ∧
    score <$> items (exec (changeItemFulfilled id) s) !! i = Some None ∧
    fulfilled <$> items (exec (changeItemFulfilled id) s) !! i
    = Some (negb (fulfilled it)).
Proof.
  intros (i & it & Hf)%first_with_id_present.
  pose proof Hf as (Hi & Hid & Hmin)%first_with_id_Some.
  assert (items (exec (changeItemFulfilled id) s)
          = <[i := {| item := item it; score := None; comment := comment it;
                     fulfilled := negb (fulfilled it) |}]> (items s)) as Hitems.
  { unfold exec. rewrite (changeItemFulfilled_found _ _ _ _ Hf). cbn [fst].
    rewrite items_with_item, items_with_selected.
    by rewrite (alter_as_insert _ _ _ _ Hi). }
  exists i, it. split_and!; try done.
  - unfold result. by rewrite (changeItemFulfilled_found _ _ _ _ Hf).
  - rewrite Hitems, list_lookup_insert_eq; [done|]. by eapply lookup_lt_Some.
  - rewrite Hitems, list_lookup_insert_eq; [done|]. by eapply lookup_lt_Some.
Qed.

Lemma changeItemFulfilled_present_witness :
  3 ∈ ids sample ∧
  ∃ i it,
    items sample !! i = Some it ∧ itemId (item it) = 3 ∧
    (∀ j it', items sample !! j = Some it' → (j < i)%nat → itemId (item it') ≠ 3) ∧
    result (changeItemFulfilled 3) sample = Normal tt ∧
    items (exec (changeItemFulfilled 3) sample)
    = <[i := {| item := item it; score := None; comment := comment it;
               fulfilled := negb (fulfilled it) |}]> (items sample) ∧
    score <$> items (exec (changeItemFulfilled 3) sample) !! i = Some None ∧
    fulfilled <$> items (exec (changeItemFulfilled 3) sample) !! i
    = Some (negb (fulfilled it)).
Proof.
  assert (H : 3 ∈ ids sample) by (apply (bool_decide_unpack _); vm_compute; exact I).
  split; [exact H | apply (changeItemFulfilled_present sample 3 H)].
Defined.

(** C8: for an id carried by some item, [updateScoreOfItem] returns
    normally and replaces the [score] of the first item with that id,
    keeping its raw fields, [comment] and [fulfilled]; in the same way
    [updateCommentOfItem] replaces its [comment] and keeps the raw fields,
    [score] and [fulfilled]. Every other slot of the registry keeps the
    item it had. *)
Theorem update_changes_one_field (s : Store) (id : Z) (v : number) (c : string) :
  id ∈ ids s →
  ∃ i it,
    items s !! i = Some it ∧ itemId (item it) = id ∧
    (∀ j it', items s !! j = Some it' → (j < i)%nat → itemId (item it') ≠ id) ∧
    result (updateScoreOfItem v id) s = Normal tt ∧
    items (exec (updateScoreOfItem v id) s)
    = <[i := {| item := item it; score := Some v; comment := comment it;
               fulfilled := fulfilled it |}]> (items s) ∧
    result (updateCommentOfItem c id) s = Normal tt ∧
    items (exec (updateCommentOfItem c id) s)
    = <[i := {| item := item it; score := score it; comment := Some c;
               fulfilled := fulfilled it |}]> (items s) ∧
    (∀ j, j ≠ i →
       items (exec (updateScoreOfItem v id) s) !! j = items s !! j ∧
       items (exec (updateCommentOfItem c id) s) !! j = items s !! j).
Proof.
  intros (i & it & Hf)%first_with_id_present.
  pose proof Hf as (Hi & Hid & Hmin)%first_with_id_Some.
  assert (items (exec (updateScoreOfItem v id) s)
          = <[i := set_score (Some v) it]> (items s)) as Hscore.
  { unfold exec. rewrite (updateScoreOfItem_found _ _ _ _ _ Hf). cbn [fst].
    rewrite items_with_item, items_with_selected.
    by apply alter_as_insert. }
  assert (items (exec (updateCommentOfItem c id) s)
          = <[i := set_comment (Some c) it]> (items s)) as Hcomment.
  { unfold exec. rewrite (updateCommentOfItem_found _ _ _ _ _ Hf). cbn [fst].
    rewrite items_with_item, items_with_selected.
    by apply alter_as_insert. }
  exists i, it. split_and!; try done.
  - unfold result. by rewrite (updateScoreOfItem_found _ _ _ _ _ Hf).
  - unfold result. by rewrite (updateCommentOfItem_found _ _ _ _ _ Hf).
  - intros j Hj. rewrite Hscore, Hcomment.
    by rewrite !list_lookup_insert_ne.
Qed.

Lemma update_changes_one_field_witness :
  2 ∈ ids sample ∧
  ∃ i it,
    items sample !! i = Some it ∧ itemId (item it) = 2 ∧
    (∀ j it', items sample !! j = Some it' → (j < i)%nat → itemId (item it') ≠ 2) ∧
    result (updateScoreOfItem (of_Z 5) 2) sample = Normal tt ∧
    items (exec (updateScoreOfItem (of_Z 5) 2) sample)
    = <[i := {| item := item it; score := Some (of_Z 5); comment := comment it;
               fulfilled := fulfilled it |}]> (items sample) ∧
    result (updateCommentOfItem "ok" 2) sample = Normal tt ∧
    items (exec (updateCommentOfItem "ok" 2) sample)
    = <[i := {| item := item it; score := score it; comment := Some "ok"%string;
               fulfilled := fulfilled it |}]> (items sample) ∧
    (∀ j, j ≠ i →
       items (exec (updateScoreOfItem (of_Z 5) 2) sample) !! j = items sample !! j ∧
       items (exec (updateCommentOfItem "ok" 2) sample) !! j = items sample !! j).
Proof.
  assert (H : 2 ∈ ids sample) by (apply (bool_decide_unpack _); vm_compute; exact I).
  split; [exact H | apply (update_changes_one_field sample 2 (of_Z 5) "ok" H)].
Defined.

(** C10: for an id that no item carries, [changeItemFulfilled] returns
    normally and changes neither the registry nor any other array: the
    test on the looked-up element skips both writes. The two update
    methods have no such test and raise a [TypeError] for the same id. *)
Theorem changeItemFulfilled_absent (s : Store) (id : Z) :
  id ∉ ids s →
  result (changeItemFulfilled id) s = Normal tt ∧
  items (exec (changeItemFulfilled id) s) = items s ∧
  heap (exec (changeItemFulfilled id) s) = heap s ∧
  (∀ v, result (updateScoreOfItem v id) s = Thrown TypeError) ∧
  (∀ c, result (updateCommentOfItem c id) s = Thrown TypeError).
Proof.
  intros Hf%first_with_id_None. unfold exec, result.
  rewrite (changeItemFulfilled_missing _ _ Hf).
  split_and!; try done.
  - intros v. by rewrite (updateScoreOfItem_missing _ _ _ Hf).
  - intros c. by rewrite (updateCommentOfItem_missing _ _ _ Hf).
Qed.

Lemma changeItemFulfilled_absent_witness :
  (7 ∉ ids sample) ∧
  result (changeItemFulfilled 7) sample = Normal tt ∧
  items (exec (changeItemFulfilled 7) sample) = items sample ∧
  heap (exec (changeItemFulfilled 7) sample) = heap sample ∧
  (∀ v, result (updateScoreOfItem v 7) sample = Thrown TypeError) ∧
  (∀ c, result (updateCommentOfItem c 7) sample = Thrown TypeError).
Proof.
  assert (H : 7 ∉ ids sample) by (apply (bool_decide_unpack _); vm_compute; exact I).
  split; [exact H | apply (changeItemFulfilled_absent sample 7 H)].
Defined.

(** ** The worked example of the description

    Three items, two of topic A and one of topic B: scoring item 1 gives
    topic A one answered item of two, that is 50 percent, and the quiz is
    not completed; once item 2 has a score and item 3 is marked as not
    fulfilled the quiz is completed. *)
Example walkthrough (getProgress : nat → list number) :
  let s1 := exec (updateScoreOfItem (of_Z 5) 1) sample in
  let s2 := exec (changeItemFulfilled 3) (exec (updateScoreOfItem (of_Z 3) 2) s1) in
  itemTopicKeys sample = ["A"; "B"]%string ∧
  getNumberOfItemsPerTopic "A" sample = 2%nat ∧
  getNumberOfAnsweredItemsPerTopic "A" s1 = 1%nat ∧
  getProgressPercent (of_Z 1) (of_Z 2) = of_Z 50 ∧
  isQuizCompleted getProgress s1 = false ∧
  isQuizCompleted getProgress s2 = true.
Proof. vm_compute. repeat split. Qed.

(** ** Where the code departs from its description *)

(** C1: the registry [sample] has no item with id 7, and
    [updateScoreOfItem 5 7] raises a [TypeError] there: [findIndex] yields
    -1, the element at -1 is [undefined], and the assignment to its
    [score] fails. The registry itself keeps its contents. *)
Theorem updateScoreOfItem_unknown_id_throws :
  (7 ∉ ids sample) ∧
  result (updateScoreOfItem (of_Z 5) 7) sample = Thrown TypeError ∧
  selectedItemIndex (exec (updateScoreOfItem (of_Z 5) 7) sample) = Some (-1) ∧
  items (exec (updateScoreOfItem (of_Z 5) 7) sample) = items sample.
Proof.
  assert (H : 7 ∉ ids sample) by (apply (bool_decide_unpack _); vm_compute; exact I).
  split; [exact H|].
  apply first_with_id_None in H. unfold result, exec.
  by rewrite (updateScoreOfItem_missing _ _ _ H).
Qed.

Lemma map_fmap {A B : Type} (f : A → B) (l : list A) : map f l = f <$> l.
Proof. reflexivity. Qed.

Lemma items_crowdedRun (m : Z) (k : nat) :
  Z.of_nat k ≤ m → items (crowdedRun m (Z.of_nat k)) = crowded m (Z.of_nat k).
Proof.
  induction k as [|k IH]; intros Hk.
  - unfold crowdedRun. simpl. rewrite items_setCopyOfItems, !map_fmap.
    unfold crowded. rewrite <- list_fmap_compose.
    apply list_fmap_ext. intros i x Hx%lookup_seqZ. simpl.
    unfold withDefaults, crowdedItem. f_equal.
    symmetry. apply bool_decide_eq_true. lia.
  - unfold crowdedRun. rewrite seqZ_S, foldl_snoc. fold (crowdedRun m (Z.of_nat k)).
    set (s := crowdedRun m (Z.of_nat k)).
    assert (Hitems : items s = crowded m (Z.of_nat k)) by (apply IH; lia).
    assert (Hat : ∀ n j, crowded m n !! j = crowdedItem n <$> seqZ 1 m !! j).
    { intros n j. unfold crowded. apply list_lookup_fmap. }
    assert (Hf : first_with_id (1 + Z.of_nat k) (items s)
                 = Some (k, crowdedItem (Z.of_nat k) (1 + Z.of_nat k))).
    { apply first_with_id_Some. rewrite Hitems. split_and!.
      - rewrite Hat, lookup_seqZ_lt by lia. done.
      - done.
      - intros j it'. rewrite Hat. intros Hj Hlt.
        destruct (seqZ 1 m !! j) as [x|] eqn:Hx; [|done].
        apply lookup_seqZ in Hx as [-> _]. injection Hj as <-. simpl. lia. }
    unfold exec. rewrite (changeItemFulfilled_found _ _ _ _ Hf). cbn [fst].
    rewrite items_with_item, items_with_selected, Hitems.
    apply list_eq. intros j. destruct (decide (j = k)) as [->|Hne].
    + rewrite list_lookup_alter_eq, !Hat, lookup_seqZ_lt by lia. simpl.
      unfold crowdedItem, set_score, set_fulfilled; simpl. do 2 f_equal.
      rewrite bool_decide_eq_true_2 by lia.
      rewrite bool_decide_eq_false_2 by lia. done.
    + rewrite list_lookup_alter_ne, !Hat by done.
      destruct (seqZ 1 m !! j) as [x|] eqn:Hx; [|done].
      apply lookup_seqZ in Hx as [-> _]. simpl.
      unfold crowdedItem. do 2 f_equal. apply bool_decide_ext. lia.
Qed.

Lemma items_crowdedRun_Z (m n : Z) :
  0 ≤ n ≤ m → items (crowdedRun m n) = crowded m n.
Proof.
  intros Hn. rewrite <- (Z2Nat.id n) by lia. apply items_crowdedRun. lia.
Qed.

(** The progress views read the store through its registry only. *)
Lemma isQuizCompleted_items getProgress s s' :
  items s = items s' → isQuizCompleted getProgress s = isQuizCompleted getProgress s'.
Proof.
  intros H. unfold isQuizCompleted, totalProgress, itemTopicTitles, itemTopicKeys,
    getNumberOfItemsPerTopic, getNumberOfAnsweredItemsPerTopic.
  by rewrite H.
Qed.

Lemma isQuizCompleted_crowdedRun getProgress (m n : Z) :
  0 ≤ n ≤ m →
  isQuizCompleted getProgress (crowdedRun m n)
  = isQuizCompleted getProgress (holding (crowded m n)).
Proof.
  intros Hn. apply isQuizCompleted_items.
  rewrite items_crowdedRun_Z by done. reflexivity.
Qed.

Lemma length_crowdedRun (m n : Z) :
  0 ≤ n ≤ m → Z.of_nat (length (items (crowdedRun m n))) = m.
Proof.
  intros Hn. rewrite items_crowdedRun_Z by done.
  unfold crowded. rewrite length_fmap, length_seqZ. lia.
Qed.

Lemma unanswered_in_crowdedRun (m n : Z) :
  0 ≤ n < m →
  ∃ it, it ∈ items (crowdedRun m n) ∧ score it = None ∧ fulfilled it = true.
Proof.
  intros Hn. exists (crowdedItem n m).
  rewrite items_crowdedRun_Z by lia. split_and!.
  - unfold crowded. apply list_elem_of_fmap. exists m. split; [done|].
    apply elem_of_seqZ. lia.
  - done.
  - simpl. apply bool_decide_eq_true. lia.
Qed.

(** C2: load 20001 items of one topic and call [changeItemFulfilled] for
    the first 20000 of them. The last item is still to be answered (it is
    fulfilled and has no score), yet [isQuizCompleted] is true: the topic's
    percentage 20000/20001*100 is turned into the string "100.00" by
    [toFixed(2)] before it is compared with 100. With 2 items of which 1
    is answered the view is false, as the description says. *)
Theorem isQuizCompleted_with_unanswered_item (getProgress : nat → list number) :
  isQuizCompleted getProgress (crowdedRun 20001 20000) = true ∧
  Z.of_nat (length (items (crowdedRun 20001 20000))) = 20001 ∧
  (∃ it, it ∈ items (crowdedRun 20001 20000) ∧ score it = None ∧ fulfilled it = true) ∧
  toFixed2 (num_mul (num_div (of_Z 20000) (of_Z 20001)) (of_Z 100))
  = FixedString false 10000 ∧
  isQuizCompleted getProgress (crowdedRun 2 1) = false.
Proof.
  split_and!; [| | |by vm_compute|].
  - rewrite isQuizCompleted_crowdedRun by lia.
    vm_cast_no_check (eq_refl true).
  - apply length_crowdedRun. lia.
  - apply unanswered_in_crowdedRun. lia.
  - rewrite isQuizCompleted_crowdedRun by lia.
    vm_cast_no_check (eq_refl false).
Qed.

(** * Further properties of the store *)

(** ** Numbers *)

Lemma div_eucl_shifted (m : positive) :
  Z.div_eucl (Z.shiftl (Z.pos m) 53) (Z.pos m) = (2 ^ 53, 0).
Proof.
  rewrite Z.shiftl_mul_pow2 by lia.
  assert (H1 : (Z.pos m * 2 ^ 53) `div` Z.pos m = 2 ^ 53).
  { rewrite Z.mul_comm. apply Z.div_mul. lia. }
  assert (H2 : (Z.pos m * 2 ^ 53) `mod` Z.pos m = 0).
  { rewrite Z.mul_comm. apply Z.mod_mul. lia. }
  unfold Z.div, Z.modulo in H1, H2.
  destruct (Z.div_eucl (Z.pos m * 2 ^ 53) (Z.pos m)) as [q r]. by subst.
Qed.

Lemma num_div_self (sg : bool) (m : positive) (e : Z) :
  num_div (S754_finite sg m e) (S754_finite sg m e) = of_Z 1.
Proof.
  unfold num_div, SFdiv, SFdiv_core_binary.
  replace (Zdigits2 (Z.pos m) + e - (Zdigits2 (Z.pos m) + e)) with 0 by lia.
  replace (e - e) with 0 by lia.
  change (Z.min (fexp prec emax 0) 0) with (-53).
  change (0 - -53) with 53.
  cbv beta iota. change IntDef.Z.div_eucl with Z.div_eucl. rewrite div_eucl_shifted.
  assert (Hloc : new_location (Z.pos m) 0 = loc_Exact).
  { unfold new_location. by destruct (Z.even (Z.pos m)). }
  rewrite Hloc. rewrite xorb_nilpotent. by vm_compute.
Qed.

Lemma digits2_pos_lower (p : positive) :
  2 ^ (Z.pos (digits2_pos p) - 1) ≤ Z.pos p.
Proof.
  induction p as [p IH|p IH|]; simpl digits2_pos; [| |done].
  - rewrite Pos2Z.inj_succ.
    replace (Z.succ (Z.pos (digits2_pos p)) - 1)
      with (Z.succ (Z.pos (digits2_pos p) - 1)) by lia.
    rewrite Z.pow_succ_r by lia. lia.
  - rewrite Pos2Z.inj_succ.
    replace (Z.succ (Z.pos (digits2_pos p)) - 1)
      with (Z.succ (Z.pos (digits2_pos p) - 1)) by lia.
    rewrite Z.pow_succ_r by lia. lia.
Qed.

Lemma digits2_pos_shifted (p k : positive) :
  digits2_pos (Pos.iter xO p k) = (digits2_pos p + k)%positive.
Proof.
  induction k as [|k IH] using Pos.peano_ind.
  - simpl. lia.
  - rewrite Pos.iter_succ. simpl. rewrite IH. lia.
Qed.

Lemma shr_fexp_canonical (mz : positive) (ez : Z) :
  Z.pos (digits2_pos mz) = 53 → -1074 ≤ ez →
  shr_fexp prec emax (Z.pos mz) ez loc_Exact
  = ({| shr_m := Z.pos mz; shr_r := false; shr_s := false |}, ez).
Proof.
  intros Hd He. unfold shr_fexp. simpl Zdigits2. rewrite Hd.
  replace (fexp prec emax (53 + ez) - ez) with 0; [done|].
  unfold fexp, emin, prec, emax. lia.
Qed.

Lemma binary_round_aux_canonical (sx : bool) (mz : positive) (ez : Z) :
  Z.pos (digits2_pos mz) = 53 → -1074 ≤ ez ≤ 971 →
  binary_round_aux prec emax sx (Z.pos mz) ez loc_Exact = S754_finite sx mz ez.
Proof.
  intros Hd He. unfold binary_round_aux.
  rewrite shr_fexp_canonical by (done || lia). simpl.
  rewrite shr_fexp_canonical by (done || lia). simpl.
  assert ((ez <=? emax - prec) = true) as -> by (apply Z.leb_le; unfold emax, prec; lia).
  done.
Qed.

(** An integer counter below 2^53 is a finite, nonzero number. *)
Lemma of_Z_pos_finite (p : positive) :
  Z.pos p < 2 ^ 53 → ∃ m e, of_Z (Z.pos p) = S754_finite false m e.
Proof.
  intros Hp. unfold of_Z, binary_normalize, binary_round, shl_align.
  pose proof (digits2_pos_lower p) as Hlow.
  assert (Hd : Z.pos (digits2_pos p) ≤ 53).
  { destruct (decide (Z.pos (digits2_pos p) ≤ 53)) as [|Hgt]; [done|].
    assert (2 ^ 53 ≤ 2 ^ (Z.pos (digits2_pos p) - 1)) by (apply Z.pow_le_mono_r; lia).
    lia. }
  replace (fexp prec emax (Z.pos (digits2_pos p) + 0) - 0)
    with (Z.pos (digits2_pos p) - 53) by (unfold fexp, emin, prec, emax; lia).
  replace (fexp prec emax (Z.pos (digits2_pos p) + 0))
    with (Z.pos (digits2_pos p) - 53) by (unfold fexp, emin, prec, emax; lia).
  destruct (Z.pos (digits2_pos p) - 53) as [|k|k] eqn:Hk; [|lia|].
  - eexists _, _. apply binary_round_aux_canonical; lia.
  - eexists _, _. apply binary_round_aux_canonical; [|lia].
    rewrite digits2_pos_shifted. lia.
Qed.

Lemma getProgressPercent_self (sg : bool) (m : positive) (e : Z) :
  getProgressPercent (S754_finite sg m e) (S754_finite sg m e) = of_Z 100.
Proof. unfold getProgressPercent. rewrite num_div_self. by vm_compute. Qed.

Lemma getProgressPercent_zero (sg : bool) (m : positive) (e : Z) :
  getProgressPercent (of_Z 0) (S754_finite sg m e) = of_Z 0.
Proof. by destruct sg. Qed.

Lemma filter_ext_in {A : Type} (P Q : A → Prop)
    `{!∀ x, Decision (P x)} `{!∀ x, Decision (Q x)} (l : list A) :
  (∀ x, x ∈ l → P x ↔ Q x) → filter P l = filter Q l.
Proof.
  induction l as [|x l IH]; intros Hiff; [done|].
  rewrite !filter_cons.
  rewrite IH by (intros y Hy; apply Hiff; by right).
  destruct (decide (P x)) as [HP|HP], (decide (Q x)) as [HQ|HQ]; try done.
  - exfalso. apply HQ, Hiff; [left|done].
  - exfalso. apply HP, Hiff; [left|done].
Qed.

Lemma filter_none {A : Type} (P : A → Prop) `{!∀ x, Decision (P x)} (l : list A) :
  (∀ x, x ∈ l → ¬ P x) → filter P l = [].
Proof.
  induction l as [|x l IH]; intros Hno; [done|].
  rewrite filter_cons, decide_False by (apply Hno; left).
  apply IH. intros y Hy. apply Hno. by right.
Qed.

Lemma count_positive (s : Store) (k : string) :
  k ∈ itemTopicKeys s → (0 < getNumberOfItemsPerTopic k s)%nat.
Proof.
  intros (it & Hin & Hk)%itemTopicKeys_elem.
  rewrite getNumberOfItemsPerTopic_filter.
  assert (it ∈ filter (λ it, topicKey (item it) = k) (items s)) as Hfil
    by (by apply list_elem_of_filter).
  destruct (filter _ (items s)); [by apply elem_of_nil in Hfil|simpl; lia].
Qed.

Lemma count_bounded (s : Store) (k : string) :
  (getNumberOfItemsPerTopic k s ≤ length (items s))%nat.
Proof. rewrite getNumberOfItemsPerTopic_filter. apply length_filter. Qed.

(** The count of a topic that has items, as a number. *)
Lemma count_finite (s : Store) (k : string) :
  Z.of_nat (length (items s)) < 2 ^ 53 → k ∈ itemTopicKeys s →
  ∃ m e, of_Z (Z.of_nat (getNumberOfItemsPerTopic k s)) = S754_finite false m e.
Proof.
  intros Hlen Hk. pose proof (count_positive s k Hk). pose proof (count_bounded s k).
  destruct (Z.of_nat (getNumberOfItemsPerTopic k s)) as [|p|p] eqn:Hn; [lia| |lia].
  apply of_Z_pos_finite. lia.
Qed.

Lemma totalProgress_has_key getProgress s k :
  k ∈ itemTopicKeys s →
  ∃ e, e ∈ totalProgress getProgress s ∧ progressTopicKey e = k.
Proof.
  intros (i & Hi)%list_elem_of_lookup_1. unfold totalProgress.
  eexists. split; [by eapply elem_of_lookup_imap_2|done].
Qed.

(** X1: when every item has a score or is marked as not fulfilled,
    [isQuizCompleted] is true. The size bound (an array has fewer than
    2^32 elements) keeps the counts exact as numbers. *)
Theorem all_answered_completed (getProgress : nat → list number) (s : Store) :
  Z.of_nat (length (items s)) < 2 ^ 53 →
  (∀ it, it ∈ items s → score it ≠ None ∨ fulfilled it = false) →
  isQuizCompleted getProgress s = true.
Proof.
  intros Hlen Hall. unfold isQuizCompleted, every. apply forallb_forall.
  intros e [Hk Hp]%list_elem_of_In%totalProgress_entry. rewrite Hp.
  assert (getNumberOfAnsweredItemsPerTopic (progressTopicKey e) s
          = getNumberOfItemsPerTopic (progressTopicKey e) s) as ->.
  { rewrite getNumberOfAnsweredItemsPerTopic_filter, getNumberOfItemsPerTopic_filter.
    f_equal. apply filter_ext_in. intros it Hit. unfold answered.
    split; [by intros [? _]|]. intros ?. split; [done|]. by apply Hall. }
  destruct (count_finite s _ Hlen Hk) as (m & ex & ->).
  rewrite getProgressPercent_self. by vm_compute.
Qed.

Lemma all_answered_completed_witness :
  Z.of_nat (length (items sampleAnswered)) < 2 ^ 53 ∧
  (∀ it, it ∈ items sampleAnswered → score it ≠ None ∨ fulfilled it = false) ∧
  isQuizCompleted (λ _, []) sampleAnswered = true.
Proof.
  assert (H1 : Z.of_nat (length (items sampleAnswered)) < 2 ^ 53) by (by vm_compute).
  assert (H2 : ∀ it, it ∈ items sampleAnswered → score it ≠ None ∨ fulfilled it = false).
  { apply (proj1 (Forall_forall
                    (λ it, score it ≠ None ∨ fulfilled it = false) (items sampleAnswered))).
    apply (bool_decide_unpack _). vm_compute. exact I. }
  split_and!; [exact H1 | exact H2 |
               apply (all_answered_completed (λ _, []) sampleAnswered H1 H2)].
Defined.

(** X2: when some topic has no answered item at all (each of its items
    is fulfilled and has no score) [isQuizCompleted] is false: that
    topic stands at 0 percent. In particular a quiz that was just loaded
    and is not empty is not completed. *)
Theorem unanswered_topic_not_completed (getProgress : nat → list number)
    (s : Store) (it : IItemModified) :
  Z.of_nat (length (items s)) < 2 ^ 53 →
  it ∈ items s →
  (∀ it', it' ∈ items s → topicKey (item it') = topicKey (item it) →
          score it' = None ∧ fulfilled it' = true) →
  isQuizCompleted getProgress s = false.
Proof.
  intros Hlen Hin Hnone.
  assert (Hk : topicKey (item it) ∈ itemTopicKeys s).
  { apply itemTopicKeys_elem. by exists it. }
  destruct (totalProgress_has_key getProgress s _ Hk) as (e & He & Hkey).
  destruct (isQuizCompleted getProgress s) eqn:Hc; [|done]. exfalso.
  unfold isQuizCompleted, every in Hc. rewrite forallb_forall in Hc.
  specialize (Hc e ltac:(by apply list_elem_of_In)).
  apply totalProgress_entry in He as [_ Hp]. rewrite Hp, Hkey in Hc.
  assert (getNumberOfAnsweredItemsPerTopic (topicKey (item it)) s = 0%nat) as Hzero.
  { rewrite getNumberOfAnsweredItemsPerTopic_filter.
    rewrite filter_none; [done|].
    intros it' Hit'. unfold answered.
    intros [Hsame [Hs|Hf]]; destruct (Hnone it' Hit' Hsame) as [Hs' Hf']; congruence. }
  rewrite Hzero in Hc.
  destruct (count_finite s _ Hlen Hk) as (m & ex & Hfin). rewrite Hfin in Hc.
  change (of_Z (Z.of_nat 0)) with (of_Z 0) in Hc.
  rewrite getProgressPercent_zero in Hc. by vm_compute in Hc.
Qed.

Lemma unanswered_topic_not_completed_witness :
  Z.of_nat (length (items sample)) < 2 ^ 53 ∧
  sampleFirst ∈ items sample ∧
  (∀ it', it' ∈ items sample → topicKey (item it') = topicKey (item sampleFirst) →
          score it' = None ∧ fulfilled it' = true) ∧
  isQuizCompleted (λ _, []) sample = false.
Proof.
  assert (H1 : Z.of_nat (length (items sample)) < 2 ^ 53) by (by vm_compute).
  assert (H2 : sampleFirst ∈ items sample) by (vm_compute; left).
  assert (H3 : ∀ it', it' ∈ items sample →
                 topicKey (item it') = topicKey (item sampleFirst) →
                 score it' = None ∧ fulfilled it' = true).
  { apply (proj1 (Forall_forall
                    (λ it', topicKey (item it') = topicKey (item sampleFirst) →
                            score it' = None ∧ fulfilled it' = true) (items sample))).
    apply (bool_decide_unpack _). vm_compute. exact I. }
  split_and!; [exact H1 | exact H2 | exact H3 |
               apply (unanswered_topic_not_completed (λ _, []) sample sampleFirst H1 H2 H3)].
Defined.

(** ** Sequences of calls *)

Lemma items_updateScoreOfItem v id s :
  items (exec (updateScoreOfItem v id) s) = on_first id (set_score (Some v)) (items s).
Proof.
  unfold exec, on_first. destruct (first_with_id id (items s)) as [[i it]|] eqn:Hf.
  - rewrite (updateScoreOfItem_found _ _ _ _ _ Hf). cbn [fst].
    by rewrite items_with_item, items_with_selected.
  - by rewrite (updateScoreOfItem_missing _ _ _ Hf).
Qed.

Lemma items_updateCommentOfItem c id s :
  items (exec (updateCommentOfItem c id) s) = on_first id (set_comment (Some c)) (items s).
Proof.
  unfold exec, on_first. destruct (first_with_id id (items s)) as [[i it]|] eqn:Hf.
  - rewrite (updateCommentOfItem_found _ _ _ _ _ Hf). cbn [fst].
    by rewrite items_with_item, items_with_selected.
  - by rewrite (updateCommentOfItem_missing _ _ _ Hf).
Qed.

Lemma items_changeItemFulfilled id s :
  items (exec (changeItemFulfilled id) s) = on_first id toggled (items s).
Proof.
  unfold exec, on_first. destruct (first_with_id id (items s)) as [[i it]|] eqn:Hf.
  - rewrite (changeItemFulfilled_found _ _ _ _ Hf). cbn [fst].
    rewrite items_with_item, items_with_selected.
    apply first_with_id_Some in Hf as (Hi & _).
    apply list_alter_ext; [|done]. intros x Hx. by simplify_eq.
  - by rewrite (changeItemFulfilled_missing _ _ Hf).
Qed.

Lemma keeps_raw_set_score v : keeps_raw (set_score v).
Proof. by intros it. Qed.
Lemma keeps_raw_set_comment c : keeps_raw (set_comment c).
Proof. by intros it. Qed.
Lemma keeps_raw_toggled : keeps_raw toggled.
Proof. by intros it. Qed.
Lemma keeps_raw_compose f g : keeps_raw f → keeps_raw g → keeps_raw (f ∘ g).
Proof. intros Hf Hg it. simpl. by rewrite Hf, Hg. Qed.

Lemma first_with_id_alter id upd j arr i it :
  keeps_raw upd →
  first_with_id id arr = Some (i, it) →
  first_with_id id (alter upd j arr)
  = Some (i, if decide (j = i) then upd it else it).
Proof.
  intros Hraw (Hi & Hid & Hmin)%first_with_id_Some.
  apply first_with_id_Some. split_and!.
  - destruct (decide (j = i)) as [->|Hne].
    + by rewrite list_lookup_alter_eq, Hi.
    + by rewrite list_lookup_alter_ne.
  - case_decide; [by rewrite Hraw|done].
  - intros k it' Hk Hlt. destruct (decide (j = k)) as [->|Hne].
    + rewrite list_lookup_alter_eq in Hk.
      destruct (arr !! k) as [x|] eqn:Hx; [|done]. simpl in Hk. injection Hk as <-.
      rewrite Hraw. by eapply Hmin.
    + rewrite list_lookup_alter_ne in Hk by done. by eapply Hmin.
Qed.

Lemma raw_alter upd j (arr : list IItemModified) :
  keeps_raw upd → item <$> alter upd j arr = item <$> arr.
Proof.
  intros Hraw. apply list_eq. intros k. rewrite !list_lookup_fmap.
  destruct (decide (j = k)) as [->|Hne].
  - rewrite list_lookup_alter_eq. destruct (arr !! k); simpl; [|done]. by rewrite Hraw.
  - by rewrite list_lookup_alter_ne.
Qed.

Lemma raw_on_first id upd arr :
  keeps_raw upd → item <$> on_first id upd arr = item <$> arr.
Proof.
  intros Hraw. unfold on_first. destruct (first_with_id id arr) as [[i it]|]; [|done].
  by apply raw_alter.
Qed.

Lemma ids_of_raw (arr : list IItemModified) :
  (λ it, itemId (item it)) <$> arr = itemId <$> (item <$> arr).
Proof. by rewrite <- list_fmap_compose. Qed.

Lemma first_with_id_None_alter id upd j arr :
  keeps_raw upd →
  first_with_id id arr = None → first_with_id id (alter upd j arr) = None.
Proof.
  intros Hraw. rewrite !first_with_id_None, !ids_of_raw. by rewrite raw_alter.
Qed.

(** Two rewrites of the same id amount to one. *)
Lemma on_first_twice id f g arr :
  keeps_raw g → on_first id f (on_first id g arr) = on_first id (f ∘ g) arr.
Proof.
  intros Hg. unfold on_first at 2 3.
  destruct (first_with_id id arr) as [[i it]|] eqn:Hf.
  - unfold on_first. rewrite (first_with_id_alter _ _ _ _ _ _ Hg Hf).
    apply list_alter_alter_eq.
  - unfold on_first. by rewrite Hf.
Qed.

(** Rewrites that commute on an item commute on the registry. *)
Lemma on_first_comm id1 id2 f g arr :
  keeps_raw f → keeps_raw g → (∀ it, f (g it) = g (f it)) →
  on_first id1 f (on_first id2 g arr) = on_first id2 g (on_first id1 f arr).
Proof.
  intros Hf Hg Hfg. unfold on_first at 2 4.
  destruct (first_with_id id1 arr) as [[i1 it1]|] eqn:H1;
    destruct (first_with_id id2 arr) as [[i2 it2]|] eqn:H2; unfold on_first.
  - rewrite (first_with_id_alter _ _ _ _ _ _ Hg H1),
      (first_with_id_alter _ _ _ _ _ _ Hf H2).
    destruct (decide (i1 = i2)) as [->|Hne].
    + rewrite !list_alter_alter_eq. apply list_alter_ext; [|done].
      intros x _. simpl. apply Hfg.
    + by apply list_alter_alter_ne.
  - by rewrite H1, (first_with_id_None_alter _ _ _ _ Hf H2).
  - by rewrite H2, (first_with_id_None_alter _ _ _ _ Hg H1).
  - by rewrite H1, H2.
Qed.

Lemma find_first_raw (k : string) (arr : list IItemModified) :
  item <$> find_first (λ it, bool_decide (topicKey (item it) = k)) arr
  = find_first (λ r, bool_decide (topicKey r = k)) (item <$> arr).
Proof.
  induction arr as [|x arr IH]; [done|]. simpl.
  by destruct (bool_decide (topicKey (item x) = k)).
Qed.

Lemma count_raw (k : string) (arr : list IItemModified) :
  length (filter (λ it, topicKey (item it) = k) arr)
  = length (filter (λ r, topicKey r = k) (item <$> arr)).
Proof.
  induction arr as [|x arr IH]; [done|].
  rewrite fmap_cons, !filter_cons. case_decide; simpl; by rewrite IH.
Qed.

Lemma foldl_insert_lookup {V : Type} (g : string → V) (ks : list string)
    (m : gmap string V) (k : string) :
  foldl (λ acc k, <[k := g k]> acc) m ks !! k
  = if decide (k ∈ ks) then Some (g k) else m !! k.
Proof.
  revert m. induction ks as [|k' ks IH]; intros m.
  - cbn [foldl]. destruct (decide (k ∈ [])) as [Hin|_]; [by apply elem_of_nil in Hin|done].
  - cbn [foldl]. rewrite IH. destruct (decide (k ∈ ks)) as [Hin|Hout].
    + by rewrite decide_True by (by right).
    + destruct (decide (k = k')) as [->|Hne].
      * rewrite decide_True by left. by rewrite lookup_insert_eq.
      * rewrite decide_False by (intros [?|?]%elem_of_cons; done).
        by rewrite lookup_insert_ne.
Qed.

Lemma itemTopicTitles_lookup (s : Store) (k : string) :
  itemTopicTitles s !! k
  = if decide (k ∈ itemTopicKeys s)
    then Some (topicTitle <$>
                 find_first (λ r, bool_decide (topicKey r = k)) (item <$> items s))
    else None.
Proof.
  unfold itemTopicTitles, reduce.
  rewrite (foldl_insert_lookup
             (λ k, topicTitle ∘ item <$>
                     find_first (λ it, bool_decide (topicKey (item it) = k)) (items s))).
  case_decide; [|done]. f_equal.
  rewrite <- find_first_raw. by destruct (find_first _ (items s)).
Qed.

Lemma views_of_raw (s s' : Store) :
  item <$> items s' = item <$> items s →
  itemTopicKeys s' = itemTopicKeys s ∧
  itemTopicTitles s' = itemTopicTitles s ∧
  (∀ k, getNumberOfItemsPerTopic k s' = getNumberOfItemsPerTopic k s).
Proof.
  intros Hraw.
  assert (Hkeys : itemTopicKeys s' = itemTopicKeys s).
  { assert (∀ l : list IItemModified,
              map (λ it, topicKey (item it)) l = topicKey <$> (item <$> l)) as Hmap.
    { intros l. by rewrite <- list_fmap_compose. }
    unfold itemTopicKeys. by rewrite !Hmap, Hraw. }
  split_and!; [done| |].
  - apply map_eq. intros k. by rewrite !itemTopicTitles_lookup, Hkeys, Hraw.
  - intros k. by rewrite !getNumberOfItemsPerTopic_filter, !count_raw, Hraw.
Qed.

Lemma keeps_topics_intro (op : Action unit) (s : Store) :
  item <$> items (exec op s) = item <$> items s →
  modifiedItems (exec op s) = modifiedItems s →
  summaryInits (exec op s) = summaryInits s →
  keeps_topics op s.
Proof.
  intros Hraw Hm Hs. destruct (views_of_raw s (exec op s) Hraw) as (? & ? & ?).
  by split_and!.
Qed.

(** X3: none of the three mutating methods, whether it finds the id or
    not, changes the raw items or their order; the topic keys, the titles
    and the topic sizes stay, the registry stays the same array and the
    summary store is not called. *)
Theorem mutators_keep_topics (s : Store) (id : Z) (v : number) (c : string) :
  keeps_topics (updateScoreOfItem v id) s ∧
  keeps_topics (updateCommentOfItem c id) s ∧
  keeps_topics (changeItemFulfilled id) s.
Proof.
  split_and!; apply keeps_topics_intro.
  - rewrite items_updateScoreOfItem. apply raw_on_first, keeps_raw_set_score.
  - unfold exec. destruct (first_with_id id (items s)) as [[i it]|] eqn:Hf.
    + by rewrite (updateScoreOfItem_found _ _ _ _ _ Hf).
    + by rewrite (updateScoreOfItem_missing _ _ _ Hf).
  - unfold exec. destruct (first_with_id id (items s)) as [[i it]|] eqn:Hf.
    + by rewrite (updateScoreOfItem_found _ _ _ _ _ Hf).
    + by rewrite (updateScoreOfItem_missing _ _ _ Hf).
  - rewrite items_updateCommentOfItem. apply raw_on_first, keeps_raw_set_comment.
  - unfold exec. destruct (first_with_id id (items s)) as [[i it]|] eqn:Hf.
    + by rewrite (updateCommentOfItem_found _ _ _ _ _ Hf).
    + by rewrite (updateCommentOfItem_missing _ _ _ Hf).
  - unfold exec. destruct (first_with_id id (items s)) as [[i it]|] eqn:Hf.
    + by rewrite (updateCommentOfItem_found _ _ _ _ _ Hf).
    + by rewrite (updateCommentOfItem_missing _ _ _ Hf).
  - rewrite items_changeItemFulfilled. apply raw_on_first, keeps_raw_toggled.
  - unfold exec. destruct (first_with_id id (items s)) as [[i it]|] eqn:Hf.
    + by rewrite (changeItemFulfilled_found _ _ _ _ Hf).
    + by rewrite (changeItemFulfilled_missing _ _ Hf).
  - unfold exec. destruct (first_with_id id (items s)) as [[i it]|] eqn:Hf.
    + by rewrite (changeItemFulfilled_found _ _ _ _ Hf).
    + by rewrite (changeItemFulfilled_missing _ _ Hf).
Qed.

(** X4: calling [changeItemFulfilled] twice for the same id gives back the
    [fulfilled] flag the item had, but not its score: the registry ends
    as if the score of that item had been cleared. *)
Theorem changeItemFulfilled_twice (s : Store) (id : Z) :
  items (exec (changeItemFulfilled id) (exec (changeItemFulfilled id) s))
  = on_first id (λ it, {| item := item it; score := None; comment := comment it;
                          fulfilled := fulfilled it |}) (items s).
Proof.
  rewrite !items_changeItemFulfilled, on_first_twice by apply keeps_raw_toggled.
  unfold on_first. destruct (first_with_id id (items s)) as [[i it]|]; [|done].
  apply list_alter_ext; [|done]. intros x _. unfold toggled; simpl.
  by rewrite negb_involutive.
Qed.

(** X5: a score and a comment can be set in either order, for the same
    item or for two different ones: the registry ends the same. *)
Theorem score_and_comment_commute (s : Store) (id1 id2 : Z) (v : number) (c : string) :
  items (exec (updateCommentOfItem c id2) (exec (updateScoreOfItem v id1) s))
  = items (exec (updateScoreOfItem v id1) (exec (updateCommentOfItem c id2) s)).
Proof.
  repeat (rewrite items_updateCommentOfItem || rewrite items_updateScoreOfItem).
  apply on_first_comm; [apply keeps_raw_set_comment|apply keeps_raw_set_score|done].
Qed.

(** X6: the last score written to an item is the one it keeps, and so for
    the comment. *)
Theorem last_write_wins (s : Store) (id : Z) (v1 v2 : number) (c1 c2 : string) :
  items (exec (updateScoreOfItem v2 id) (exec (updateScoreOfItem v1 id) s))
  = items (exec (updateScoreOfItem v2 id) s) ∧
  items (exec (updateCommentOfItem c2 id) (exec (updateCommentOfItem c1 id) s))
  = items (exec (updateCommentOfItem c2 id) s).
Proof.
  repeat (rewrite items_updateCommentOfItem || rewrite items_updateScoreOfItem).
  rewrite !on_first_twice by (apply keeps_raw_set_score || apply keeps_raw_set_comment).
  done.
Qed.

(** X7: [findIndexOfItem] never fails and writes nothing but
    [selectedItemIndex]: the index of the first item carrying the id (so
    with duplicated ids the earlier item is the one selected), or -1
    when no item carries it. *)
Theorem findIndexOfItem_spec (s : Store) (id : Z) :
  result (findIndexOfItem id) s = Normal tt ∧
  heap (exec (findIndexOfItem id) s) = heap s ∧
  modifiedItems (exec (findIndexOfItem id) s) = modifiedItems s ∧
  summaryInits (exec (findIndexOfItem id) s) = summaryInits s ∧
  ∃ z, selectedItemIndex (exec (findIndexOfItem id) s) = Some z ∧
       (id ∉ ids s → z = -1) ∧
       (id ∈ ids s →
        0 ≤ z ∧ ∃ it, items s !! Z.to_nat z = Some it ∧ itemId (item it) = id ∧
                      ∀ j it', items s !! j = Some it' → (j < Z.to_nat z)%nat →
                               itemId (item it') ≠ id).
Proof.
  split_and!; try done.
  eexists. split; [reflexivity|].
  change (default [] (heap s !! modifiedItems s)) with (items s).
  split.
  - intros Hf%first_with_id_None. by apply findIndex_missing in Hf as [-> _].
  - intros (i & it & Hf)%first_with_id_present.
    pose proof Hf as (Hi & Hid & Hmin)%first_with_id_Some.
    apply findIndex_found in Hf as [-> _]. split; [lia|].
    rewrite Nat2Z.id. by exists it.
Qed.

Lemma count_alter {A : Type} (P : A → Prop) `{!∀ x, Decision (P x)}
    (f : A → A) (l : list A) (i : nat) (x : A) :
  l !! i = Some x →
  (length (filter P (alter f i l)) + (if decide (P x) then 1 else 0)
   = length (filter P l) + (if decide (P (f x)) then 1 else 0))%nat.
Proof.
  revert i. induction l as [|y l IH]; intros i Hi; [done|].
  destruct i as [|i]; simpl in Hi.
  - injection Hi as ->. simpl. rewrite !filter_cons.
    destruct (decide (P x)), (decide (P (f x))); simpl; lia.
  - change (alter f (S i) (y :: l)) with (y :: alter f i l).
    rewrite !filter_cons. specialize (IH i Hi).
    destruct (decide (P y)); simpl; lia.
Qed.

(** X8: giving a score to an item makes it count as answered: in its
    topic the number of answered items grows by one if the item was not
    answered before and stays otherwise; the other topics keep their
    numbers. *)
Theorem updateScoreOfItem_answers (s : Store) (id : Z) (v : number) :
  id ∈ ids s →
  ∃ i it, first_with_id id (items s) = Some (i, it) ∧
    ∀ k, getNumberOfAnsweredItemsPerTopic k (exec (updateScoreOfItem v id) s)
         = (getNumberOfAnsweredItemsPerTopic k s
            + (if decide (topicKey (item it) = k ∧ score it = None ∧ fulfilled it = true)
               then 1 else 0))%nat.
Proof.
  intros (i & it & Hf)%first_with_id_present. exists i, it. split; [done|].
  intros k. rewrite !getNumberOfAnsweredItemsPerTopic_filter, items_updateScoreOfItem.
  unfold on_first. rewrite Hf.
  apply first_with_id_Some in Hf as (Hi & _).
  pose proof (count_alter (λ it, topicKey (item it) = k ∧ answered it)
                (set_score (Some v)) _ _ _ Hi) as Hc.
  unfold answered in *. simpl in Hc.
  repeat case_decide; try lia; exfalso;
    destruct (score it) eqn:Hs, (fulfilled it) eqn:Hfu; simpl in *;
    intuition congruence.
Qed.

Lemma updateScoreOfItem_answers_witness :
  2 ∈ ids sample ∧
  ∃ i it, first_with_id 2 (items sample) = Some (i, it) ∧
    ∀ k, getNumberOfAnsweredItemsPerTopic k (exec (updateScoreOfItem (of_Z 5) 2) sample)
         = (getNumberOfAnsweredItemsPerTopic k sample
            + (if decide (topicKey (item it) = k ∧ score it = None ∧ fulfilled it = true)
               then 1 else 0))%nat.
Proof.
  assert (H : 2 ∈ ids sample) by (apply (bool_decide_unpack _); vm_compute; exact I).
  split; [exact H | apply (updateScoreOfItem_answers sample 2 (of_Z 5) H)].
Defined.

(** X9: after [changeItemFulfilled] the item counts as answered exactly
    when it was fulfilled before the call; an item that was marked as not
    fulfilled goes back to unanswered, whatever score it had been given
    earlier. The count of its topic moves accordingly. *)
Theorem changeItemFulfilled_answers (s : Store) (id : Z) :
  id ∈ ids s →
  ∃ i it, first_with_id id (items s) = Some (i, it) ∧
    ∀ k, (getNumberOfAnsweredItemsPerTopic k (exec (changeItemFulfilled id) s)
          + (if decide (topicKey (item it) = k ∧ (score it ≠ None ∨ fulfilled it = false))
             then 1 else 0)
          = getNumberOfAnsweredItemsPerTopic k s
            + (if decide (topicKey (item it) = k ∧ fulfilled it = true) then 1 else 0))%nat.
Proof.
  intros (i & it & Hf)%first_with_id_present. exists i, it. split; [done|].
  intros k. rewrite !getNumberOfAnsweredItemsPerTopic_filter, items_changeItemFulfilled.
  unfold on_first. rewrite Hf.
  apply first_with_id_Some in Hf as (Hi & _).
  pose proof (count_alter (λ it, topicKey (item it) = k ∧ answered it)
                toggled _ _ _ Hi) as Hc.
  unfold answered in *. simpl in Hc.
  repeat case_decide; try lia; exfalso;
    destruct (score it) eqn:Hs, (fulfilled it) eqn:Hfu; simpl in *;
    intuition congruence.
Qed.

Lemma changeItemFulfilled_answers_witness :
  3 ∈ ids sample ∧
  ∃ i it, first_with_id 3 (items sample) = Some (i, it) ∧
    ∀ k, (getNumberOfAnsweredItemsPerTopic k (exec (changeItemFulfilled 3) sample)
          + (if decide (topicKey (item it) = k ∧ (score it ≠ None ∨ fulfilled it = false))
             then 1 else 0)
          = getNumberOfAnsweredItemsPerTopic k sample
            + (if decide (topicKey (item it) = k ∧ fulfilled it = true) then 1 else 0))%nat.
Proof.
  assert (H : 3 ∈ ids sample) by (apply (bool_decide_unpack _); vm_compute; exact I).
  split; [exact H | apply (changeItemFulfilled_answers sample 3 H)].
Defined.

Lemma resetStore_run (s : Store) :
  resetStore s
  = let a := fresh (dom (heap s)) in
    ({| heap := <[a := []]> (heap s);
        modifiedItems := a;
        selectedItemIndex := selectedItemIndex s;
        summaryInits := summaryInits s |}, Normal tt).
Proof. reflexivity. Qed.

Lemma items_resetStore (s : Store) : items (exec resetStore s) = [].
Proof.
  unfold exec. rewrite resetStore_run. unfold items; simpl.
  by rewrite lookup_insert_eq.
Qed.

Lemma views_of_empty (getProgress : nat → list number) (s : Store) :
  items s = [] →
  itemTopicKeys s = [] ∧ itemTopicTitles s = ∅ ∧
  totalProgress getProgress s = [] ∧ isQuizCompleted getProgress s = true.
Proof.
  intros Hempty.
  assert (Hk : itemTopicKeys s = []) by (unfold itemTopicKeys; by rewrite Hempty).
  unfold isQuizCompleted, totalProgress, itemTopicTitles. rewrite Hk. done.
Qed.

(** X10: [resetStore] returns normally and leaves an empty registry in a
    new array: the arrays that existed, among them the one the summary
    store was given, keep their contents, and the summary store is not
    called. On the emptied store there are no topics, no progress entries,
    the quiz counts as completed, and every id is unknown: the two update
    methods raise a [TypeError], [changeItemFulfilled] does nothing. *)
Theorem resetStore_spec (getProgress : nat → list number) (s : Store) :
  result resetStore s = Normal tt ∧
  items (exec resetStore s) = [] ∧
  summaryInits (exec resetStore s) = summaryInits s ∧
  selectedItemIndex (exec resetStore s) = selectedItemIndex s ∧
  (modifiedItems (exec resetStore s) ∉ dom (heap s)) ∧
  (∀ a, a ∈ dom (heap s) → heap (exec resetStore s) !! a = heap s !! a) ∧
  itemTopicKeys (exec resetStore s) = [] ∧
  itemTopicTitles (exec resetStore s) = ∅ ∧
  totalProgress getProgress (exec resetStore s) = [] ∧
  isQuizCompleted getProgress (exec resetStore s) = true ∧
  (∀ id v, result (updateScoreOfItem v id) (exec resetStore s) = Thrown TypeError) ∧
  (∀ id c, result (updateCommentOfItem c id) (exec resetStore s) = Thrown TypeError) ∧
  (∀ id, result (changeItemFulfilled id) (exec resetStore s) = Normal tt ∧
         items (exec (changeItemFulfilled id) (exec resetStore s)) = []).
Proof.
  pose proof (items_resetStore s) as Hempty.
  destruct (views_of_empty getProgress _ Hempty) as (Hk & Ht & Hp & Hc).
  assert (Hnone : ∀ id, first_with_id id (items (exec resetStore s)) = None).
  { intros id. by rewrite Hempty. }
  assert (Hfresh : fresh (dom (heap s)) ∉ dom (heap s)) by apply is_fresh.
  split_and!; try done.
  - intros a Ha. unfold exec. rewrite resetStore_run. simpl.
    apply lookup_insert_ne. intros Heq. apply Hfresh. by rewrite Heq.
  - intros id v. unfold result. by rewrite (updateScoreOfItem_missing _ _ _ (Hnone id)).
  - intros id c. unfold result. by rewrite (updateCommentOfItem_missing _ _ _ (Hnone id)).
  - intros id. rewrite items_changeItemFulfilled. unfold on_first, result.
    by rewrite (changeItemFulfilled_missing _ _ (Hnone id)), (Hnone id).
Qed.




Lemma find_first_find {A : Type} (p : A → bool) (l : list A) :
  find_first p l = snd <$> list_find (λ x, p x = true) l.
Proof.
  induction l as [|x l IH]; [done|]. simpl. case_decide as Hx.
  - by rewrite Hx.
  - apply not_true_is_false in Hx. rewrite Hx, IH.
    by destruct (list_find _ l) as [[i y]|].
Qed.

Lemma itemTopicTitles_first (s : Store) (k : string) :
  k ∈ itemTopicKeys s →
  ∃ i it, items s !! i = Some it ∧ topicKey (item it) = k ∧
          (∀ j it', items s !! j = Some it' → (j < i)%nat → topicKey (item it') ≠ k) ∧
          itemTopicTitles s !! k = Some (Some (topicTitle (item it))).
Proof.
  intros Hk. rewrite itemTopicTitles_lookup.
  rewrite decide_True by done. rewrite <- find_first_raw, find_first_find.
  destruct (list_find _ (items s)) as [[i it]|] eqn:Hf.
  - apply list_find_Some in Hf as (Hi & Hp & Hmin).
    exists i, it. split_and!; [done|by apply bool_decide_eq_true in Hp| |done].
    intros j it' Hj Hlt Hkey. apply (Hmin j it' Hj Hlt).
    by apply bool_decide_eq_true.
  - exfalso. apply itemTopicKeys_elem in Hk as (it & Hin & Hkey).
    rewrite list_find_None, Forall_forall in Hf. apply (Hf it Hin).
    by apply bool_decide_eq_true.
Qed.

(** X12: [itemTopicTitles] has an entry for each topic key and for nothing
    else, and the entry of a key is the title of the first item of that
    topic, never [undefined]. *)
Theorem itemTopicTitles_spec (s : Store) (k : string) :
  (k ∉ itemTopicKeys s → itemTopicTitles s !! k = None) ∧
  (k ∈ itemTopicKeys s →
   ∃ i it, items s !! i = Some it ∧ topicKey (item it) = k ∧
           (∀ j it', items s !! j = Some it' → (j < i)%nat → topicKey (item it') ≠ k) ∧
           itemTopicTitles s !! k = Some (Some (topicTitle (item it)))).
Proof.
  split; intros Hk.
  - by rewrite itemTopicTitles_lookup, decide_False.
  - by apply itemTopicTitles_first.
Qed.

(** X13: [totalProgress] has one entry per topic key, in the order of
    [itemTopicKeys]; the entry at position [i] takes its width from
    position [i] of [getProgress(number of topics)] ([undefined] when the
    helper returns fewer values) and always has a title. *)
Theorem totalProgress_shape (getProgress : nat → list number) (s : Store) :
  progressTopicKey <$> totalProgress getProgress s = itemTopicKeys s ∧
  ∀ i e, totalProgress getProgress s !! i = Some e →
    itemTopicKeys s !! i = Some (progressTopicKey e) ∧
    widthPercentage e = getProgress (length (itemTopicKeys s)) !! i ∧
    ∃ title, progressTopicTitle e = Some title ∧
             itemTopicTitles s !! progressTopicKey e = Some (Some title).
Proof.
  split.
  - apply list_eq. intros i. unfold totalProgress.
    rewrite list_lookup_fmap, list_lookup_imap.
    by destruct (itemTopicKeys s !! i).
  - intros i e He. unfold totalProgress in He. rewrite list_lookup_imap in He.
    destruct (itemTopicKeys s !! i) as [k|] eqn:Hk; [|done].
    simpl in He. injection He as <-. simpl. split_and!; [done..|].
    assert (k ∈ itemTopicKeys s) as Hin by (by eapply list_elem_of_lookup_2).
    destruct (itemTopicTitles_first s k Hin) as (j & it & _ & _ & _ & Ht).
    exists (topicTitle (item it)). by rewrite Ht.
Qed.

(** X14: [getProgressPercent] at its ends. A finite nonzero number against
    itself gives 100 and 0 against it gives 0. A zero total raises
    nothing: 0 against 0 gives [NaN] and a nonzero value gives an
    infinity, neither of which is 100. *)
Theorem getProgressPercent_ends (sg : bool) (m : positive) (e : Z) :
  getProgressPercent (S754_finite sg m e) (S754_finite sg m e) = of_Z 100 ∧
  getProgressPercent (of_Z 0) (S754_finite sg m e) = of_Z 0 ∧
  getProgressPercent (of_Z 0) (of_Z 0) = S754_nan ∧
  getProgressPercent (S754_finite sg m e) (of_Z 0) = S754_infinity sg ∧
  strict_eq S754_nan (of_Z 100) = false ∧
  strict_eq (S754_infinity sg) (of_Z 100) = false.
Proof.
  split_and!.
  - apply getProgressPercent_self.
  - apply getProgressPercent_zero.
  - done.
  - by destruct sg.
  - done.
  - by destruct sg.
Qed.

(** ** Groups *)

Example toString_decimal :
  toString 12 = "12"%string ∧ toString (-3) = "-3"%string ∧ toString 0 = "0"%string.
Proof. by vm_compute. Qed.

Lemma map_with_index_from_split {A B V : Type} (key : nat → string) (v : V)
    (h : A → nat → B) (n : nat) (arr : list A) (cell : gmap string V) :
  map_with_index_from (λ x i c, (<[key i := v]> c, h x i)) n arr cell
  = (foldl (λ c i, <[key i := v]> c) cell (seq n (length arr)),
     imap (λ i x, h x (n + i)%nat) arr).
Proof.
  revert n cell. induction arr as [|x arr IH]; intros n cell; [done|].
  cbn [map_with_index_from]. rewrite IH. cbn [length seq foldl]. rewrite imap_cons.
  f_equal. f_equal; [by rewrite Nat.add_0_r|].
  apply imap_ext. intros i y _. simpl. f_equal. lia.
Qed.

Lemma foldl_insert_const_lookup {V : Type} (key : nat → string) (v : V)
    (idxs : list nat) (cell : gmap string V) (k : string) :
  foldl (λ c i, <[key i := v]> c) cell idxs !! k
  = if decide (k ∈ key <$> idxs) then Some v else cell !! k.
Proof.
  revert cell. induction idxs as [|i idxs IH]; intros cell.
  - cbn [foldl]. destruct (decide (k ∈ key <$> [])) as [Hin|_]; [by apply elem_of_nil in Hin|done].
  - cbn [foldl]. rewrite IH, fmap_cons. destruct (decide (k ∈ key <$> idxs)) as [Hin|Hout].
    + by rewrite decide_True by (by right).
    + destruct (decide (k = key i)) as [->|Hne].
      * rewrite decide_True by left. by rewrite lookup_insert_eq.
      * rewrite decide_False by (intros [?|?]%elem_of_cons; done).
        by rewrite lookup_insert_ne.
Qed.

Section KeyPartition.
Context {A : Type} (key : A → string).

Lemma filter_key_cons_perm (k : string) (ks : list string) (arr : list A) :
  k ∉ ks →
  filter (λ x, key x ∈ k :: ks) arr
  ≡ₚ filter (λ x, key x = k) arr ++ filter (λ x, key x ∈ ks) arr.
Proof.
  intros Hk. induction arr as [|x arr IH]; [done|].
  rewrite !filter_cons.
  destruct (decide (key x = k)) as [Heq|Hne].
  - rewrite decide_True by (rewrite Heq; left).
    rewrite decide_False by (by rewrite Heq). simpl. by rewrite IH.
  - destruct (decide (key x ∈ ks)) as [Hin|Hout].
    + rewrite decide_True by (by right). rewrite IH. apply Permutation_middle.
    + rewrite decide_False; [done|]. intros [?|?]%elem_of_cons; done.
Qed.

Lemma filters_by_key_perm (ks : list string) (arr : list A) :
  NoDup ks →
  mjoin ((λ k, filter (λ x, key x = k) arr) <$> ks)
  ≡ₚ filter (λ x, key x ∈ ks) arr.
Proof.
  induction 1 as [|k ks Hk _ IH].
  - simpl. rewrite filter_none; [done|]. intros x _. apply not_elem_of_nil.
  - rewrite fmap_cons. simpl. rewrite IH. symmetry. by apply filter_key_cons_perm.
Qed.
End KeyPartition.

Section GroupFacts.
Variable N : Z.

Lemma itemsByTopics_groups (s : Store) :
  (itemsByTopics N s).2 = imap (group_of N s) (itemTopicKeys s).
Proof.
  unfold itemsByTopics.
  rewrite (map_with_index_from_split (λ i, toString (Z.of_nat i + 1 + N)) false
             (λ k i, group_of N s i k)).
  done.
Qed.

Lemma itemsByTopics_expanded (s : Store) :
  (itemsByTopics N s).1
  = foldl (λ c i, <[toString (Z.of_nat i + 1 + N) := false]> c) ∅
          (seq 0 (length (itemTopicKeys s))).
Proof.
  unfold itemsByTopics.
  rewrite (map_with_index_from_split (λ i, toString (Z.of_nat i + 1 + N)) false
             (λ k i, group_of N s i k)).
  done.
Qed.

Lemma group_ids (s : Store) :
  (λ g, toString (groupId g)) <$> (itemsByTopics N s).2
  = (λ i, toString (Z.of_nat i + 1 + N)) <$> seq 0 (length (itemTopicKeys s)).
Proof.
  rewrite itemsByTopics_groups. apply list_eq. intros i.
  rewrite !list_lookup_fmap, list_lookup_imap.
  destruct (itemTopicKeys s !! i) as [k|] eqn:Hk.
  - rewrite lookup_seq_lt by (by eapply lookup_lt_Some). done.
  - rewrite lookup_seq_ge by (by apply lookup_ge_None). done.
Qed.

Lemma group_ids_NoDup (s : Store) :
  NoDup ((λ g, toString (groupId g)) <$> (itemsByTopics N s).2).
Proof.
  rewrite group_ids. apply NoDup_fmap_2; [|apply NoDup_seq].
  intros i j Hij. unfold toString in Hij. apply (inj pretty) in Hij. lia.
Qed.

End GroupFacts.

(** X15: [itemsByTopics] yields one group per topic key, in the order of
    [itemTopicKeys]; the group at position [i] has the id
    [i + 1 + NUMBER_OF_STATIC_TOPICS] and holds the items of its topic,
    all of them, in the order of the registry; no group is empty. *)
Theorem itemsByTopics_groups_spec (N : Z) (s : Store) :
  groupTopicKey <$> (itemsByTopics N s).2 = itemTopicKeys s ∧
  ∀ i g, (itemsByTopics N s).2 !! i = Some g →
    groupId g = Z.of_nat i + 1 + N ∧
    groupItems g = filter (λ it, topicKey (item it) = groupTopicKey g) (items s) ∧
    groupItems g ≠ [] ∧
    groupItems g `sublist_of` items s.
Proof.
  rewrite itemsByTopics_groups. split.
  - apply list_eq. intros i. rewrite list_lookup_fmap, list_lookup_imap.
    by destruct (itemTopicKeys s !! i).
  - intros i g Hg. rewrite list_lookup_imap in Hg.
    destruct (itemTopicKeys s !! i) as [k|] eqn:Hk; [|done].
    simpl in Hg. injection Hg as <-. simpl. split_and!; [done..| |apply sublist_filter].
    assert (k ∈ itemTopicKeys s) as (it & Hin & Hkey)%itemTopicKeys_elem
      by (by eapply list_elem_of_lookup_2).
    intros Hnil. eapply (filter_nil_not_elem_of _ _ it Hnil); done.
Qed.

(** X16: the groups of [itemsByTopics] split the registry: put one after
    the other their items are the items of the registry, each one once. *)
Theorem itemsByTopics_partition (N : Z) (s : Store) :
  mjoin (groupItems <$> (itemsByTopics N s).2) ≡ₚ items s ∧
  sum_list (length ∘ groupItems <$> (itemsByTopics N s).2) = length (items s).
Proof.
  assert (Hgroups : groupItems <$> (itemsByTopics N s).2
                    = (λ k, filter (λ it, topicKey (item it) = k) (items s))
                        <$> itemTopicKeys s).
  { rewrite itemsByTopics_groups. apply list_eq. intros i.
    rewrite !list_lookup_fmap, list_lookup_imap.
    by destruct (itemTopicKeys s !! i). }
  assert (Hall : filter (λ it, topicKey (item it) ∈ itemTopicKeys s) (items s) = items s).
  { apply filter_all. intros it Hit. apply itemTopicKeys_elem. by exists it. }
  split.
  - rewrite Hgroups, filters_by_key_perm by apply itemTopicKeys_NoDup.
    by rewrite Hall.
  - rewrite list_fmap_compose, Hgroups, <- list_fmap_compose.
    transitivity (length (filter (λ it, topicKey (item it) ∈ itemTopicKeys s) (items s)));
      [|by rewrite Hall].
    rewrite <- (count_by_key _ _ _ (itemTopicKeys_NoDup s)). done.
Qed.

(** X17: each evaluation of [itemsByTopics] leaves in
    [isItemsTopicExpanded] exactly one entry per group, under the decimal
    string of the group id, and every entry is [false]: whatever was
    expanded before is collapsed again. *)
Theorem itemsByTopics_collapsed (N : Z) (s : Store) :
  (∀ g, g ∈ (itemsByTopics N s).2 →
        (itemsByTopics N s).1 !! toString (groupId g) = Some false) ∧
  (∀ key b, (itemsByTopics N s).1 !! key = Some b →
            b = false ∧ ∃ g, g ∈ (itemsByTopics N s).2 ∧ key = toString (groupId g)) ∧
  size (itemsByTopics N s).1 = length (itemTopicKeys s).
Proof.
  assert (Hlook : ∀ key, (itemsByTopics N s).1 !! key
            = if decide (key ∈ (λ g, toString (groupId g)) <$> (itemsByTopics N s).2)
              then Some false else None).
  { intros key. rewrite itemsByTopics_expanded, group_ids.
    rewrite (foldl_insert_const_lookup (λ i, toString (Z.of_nat i + 1 + N))).
    by case_decide. }
  split_and!.
  - intros g Hg. rewrite Hlook, decide_True; [done|].
    apply list_elem_of_fmap. by exists g.
  - intros key b. rewrite Hlook. case_decide as Hin; [|done].
    intros [= <-]. split; [done|].
    apply list_elem_of_fmap in Hin as (g & -> & Hg). by exists g.
  - rewrite <- size_dom.
    assert (dom (itemsByTopics N s).1
            = list_to_set ((λ g, toString (groupId g)) <$> (itemsByTopics N s).2)) as ->.
    { apply set_eq. intros key. rewrite elem_of_dom, elem_of_list_to_set, Hlook.
      case_decide; split; intros Hx; try done; try (by eexists); by destruct Hx. }
    rewrite size_list_to_set by apply group_ids_NoDup.
    rewrite group_ids, length_fmap. apply length_seq.
Qed.
